(** * pybotframework: the regular-expression connector

    A shallow embedding of [RegexConnector], the class given in the raw
    cell of the "Regular Expression Bot" tutorial notebook:

      - [_process]      the loop over [self.intent_list] calling [re.match];
      - [_postprocess]  the lookup in [self.response_dict], [random.choice]
                        and [str.format];
      - [respond]       the template method of the [Connector] base class.

    Python values are modelled as follows.  A [str] is a Rocq [string]
    (characters are code points 0..255).  A call returns a value or raises;
    [outcome] records which.  The connector object and the state of the
    random generator form a [world] that every method threads through, so
    that what a method reads and what it changes can be told apart.

    [re.match] and the random generator are library code.  The methods are
    written over a class [PyLib] that provides them, and the general
    properties hold for every instance.  [PyRe] is a matcher for a fragment
    of the pattern syntax and [Format] a model of [str.format] for
    positional fields; both are executable, and the examples of the
    tutorial run on them. *)

From Stdlib Require Import Ascii String NArith Lia.
From stdpp Require Import base option list strings gmap.

Set Default Proof Using "Type".

(** stdpp keeps [simpl] from unfolding string concatenation; the proofs
    below compute with it. *)
#[local] Arguments String.append !_ _ / : simpl nomatch.

(* ===================================================================== *)
(** * Outcomes of Python calls *)
(* ===================================================================== *)

(** The exceptions that the connector's code can meet. *)
Inductive exn : Type :=
| re_error      (* re.error: the pattern does not compile *)
| IndexError
| KeyError
| ValueError.

(** What a call produces.  [Unmodelled] is not a Python outcome: the models
    of [re.match] and [str.format] below cover a fragment of the respective
    syntaxes and answer [Unmodelled] on any pattern or template outside of
    it, instead of guessing. *)
Inductive outcome (A : Type) : Type :=
| Return (a : A)
| Raise (e : exn)
| Unmodelled.
Arguments Return {A} a.
Arguments Raise {A} e.
Arguments Unmodelled {A}.

Definition outcome_map {A B} (f : A → B) (o : outcome A) : outcome B :=
  match o with
  | Return a => Return (f a)
  | Raise e => Raise e
  | Unmodelled => Unmodelled
  end.

(** [str(x)] for the values a capture can take: a [str] or [None]. *)
Definition py_str (x : option string) : string :=
  match x with
  | Some s => s
  | None => "None"
  end.

(* ===================================================================== *)
(** * The data model *)
(* ===================================================================== *)

(** One record of the rule file: [{"intent": ..., "pattern": ...}]. *)
Record PatternRule : Type := {
  intent : string;
  pattern : string
}.

(** What [match.groups()] returns: one entry per capturing group of the
    pattern, [None] for a group that took no part in the match. *)
Definition captures : Type := list (option string).

(** A match object.  [re.match] only ever yields matches that begin at
    position 0, so the span is given by its end. *)
Record Match : Type := {
  m_end : nat;
  groups : captures
}.

(** The value of [self.response_dict[intent]]: a JSON object whose
    ["messages"] member is the list of response templates. *)
Abbreviation entry := (gmap string (list string)).

(** The instance attributes set by [__init__]. *)
Record RegexConnector : Type := {
  intent_list : list PatternRule;
  response_dict : gmap string entry
}.

(** The pair that [_process] hands to [_postprocess]: the intent and the
    captures, both [None] when no rule matched. *)
Definition MatchResult : Type := option string * option captures.

(* ===================================================================== *)
(** * [str.format] with positional arguments *)
(* ===================================================================== *)

(** [template.format( *args)] on the replacement fields [{}] (automatic
    numbering) and [{N}] (explicit index), with the escapes [{{] and [}}].
    The template is read left to right, one character at a time, as
    CPython's markup iterator does; the first fault met decides the
    exception.  A field with a name, a conversion, a format specification,
    an attribute or an item lookup is outside this model. *)
Module Format.

(** Where the scan stands. *)
Inductive state : Type :=
| Text                        (* in literal text *)
| Open                        (* a "{" was read *)
| Close                       (* a "}" was read in literal text *)
| Index (n : N) (len : nat).  (* the digits of a field name read so far *)

(** How the fields seen so far were numbered. *)
Inductive numbering : Type :=
| Unset
| Auto (next : nat)
| Manual.

Definition is_digit (c : ascii) : bool :=
  let n := N_of_ascii c in ((48 <=? n) && (n <=? 57))%N.

Definition digit_value (c : ascii) : N := (N_of_ascii c - 48)%N.

(** The next index under automatic numbering; switching from explicit
    indices to [{}] is a [ValueError]. *)
Definition auto_index (nb : numbering) : outcome nat :=
  match nb with
  | Unset => Return 0
  | Auto n => Return n
  | Manual => Raise ValueError
  end.

(** Using an explicit index after a [{}] is a [ValueError] too. *)
Definition manual_ok (nb : numbering) : bool :=
  match nb with
  | Auto _ => false
  | Unset | Manual => true
  end.

(** A longer field name may overflow [Py_ssize_t], which is a
    [ValueError] of its own; such names are left out. *)
Definition max_digits : nat := 9.

Fixpoint scan (st : state) (nb : numbering) (args : captures) (s : string)
  : outcome string :=
  match s with
  | EmptyString =>
      match st with
      | Text => Return EmptyString
      | Open | Close | Index _ _ => Raise ValueError
      end
  | String c s' =>
      match st with
      | Text =>
          if Ascii.eqb c "{" then scan Open nb args s'
          else if Ascii.eqb c "}" then scan Close nb args s'
          else outcome_map (String c) (scan Text nb args s')
      | Close =>
          if Ascii.eqb c "}" then outcome_map (String "}") (scan Text nb args s')
          else Raise ValueError
      | Open =>
          if Ascii.eqb c "{" then outcome_map (String "{") (scan Text nb args s')
          else if Ascii.eqb c "}" then
            match auto_index nb with
            | Return i =>
                match args !! i with
                | Some a =>
                    outcome_map (String.append (py_str a))
                                (scan Text (Auto (S i)) args s')
                | None => Raise IndexError
                end
            | Raise e => Raise e
            | Unmodelled => Unmodelled
            end
          else if is_digit c then scan (Index (digit_value c) 1) nb args s'
          else Unmodelled
      | Index n len =>
          if Ascii.eqb c "}" then
            if manual_ok nb then
              match args !! N.to_nat n with
              | Some a =>
                  outcome_map (String.append (py_str a))
                              (scan Text Manual args s')
              | None => Raise IndexError
              end
            else Raise ValueError
          else if is_digit c then
            if decide (len < max_digits)
            then scan (Index (10 * n + digit_value c) (S len)) nb args s'
            else Unmodelled
          else Unmodelled
      end
  end.

(** [template.format( *args)] *)
Definition str_format (template : string) (args : captures) : outcome string :=
  scan Text Unset args template.

(** ** Templates as segments

    A template written as literal text around [{}] markers, the way the
    response files write them. *)
Inductive segment : Type :=
| Lit (s : string)
| Hole.

Fixpoint brace_free (s : string) : bool :=
  match s with
  | EmptyString => true
  | String c s' =>
      negb (Ascii.eqb c "{") && negb (Ascii.eqb c "}") && brace_free s'
  end.

Definition plain (sg : segment) : bool :=
  match sg with
  | Lit s => brace_free s
  | Hole => true
  end.

Fixpoint all_plain (segs : list segment) : bool :=
  match segs with
  | [] => true
  | sg :: segs' => plain sg && all_plain segs'
  end.

(** The template string that the segments spell. *)
Fixpoint render (segs : list segment) : string :=
  match segs with
  | [] => EmptyString
  | Lit s :: segs' => String.append s (render segs')
  | Hole :: segs' => String "{" (String "}" (render segs'))
  end.

(** The number of [{}] markers. *)
Fixpoint holes (segs : list segment) : nat :=
  match segs with
  | [] => 0
  | Lit _ :: segs' => holes segs'
  | Hole :: segs' => S (holes segs')
  end.

(** Positional substitution: the i-th marker receives the i-th argument;
    [None] when the arguments run out. *)
Fixpoint fill (segs : list segment) (args : captures) : option string :=
  match segs with
  | [] => Some EmptyString
  | Lit s :: segs' => String.append s <$> fill segs' args
  | Hole :: segs' =>
      match args with
      | [] => None
      | a :: args' => String.append (py_str a) <$> fill segs' args'
      end
  end.

End Format.

(* ===================================================================== *)
(** * [re.match] on a fragment of the pattern syntax *)
(* ===================================================================== *)

(** A backtracking matcher with the priorities of Python's engine: the
    alternatives of [|] are tried left to right, a repetition first takes
    as many characters as it can and gives them back one at a time.

    The fragment: literal characters, [.], a backslash before a punctuation
    character, capturing groups [( )], non-capturing groups [(?: )],
    alternation, the quantifiers [*], [+] and [?] after a single character,
    and the inline flag [(?i)] at the head of the pattern.  Character
    classes, anchors, counted and lazy repetition, repetition of a group,
    backreferences and the remaining [(?...)] forms are left out, and
    [parse] answers [None] on them as it does on a malformed pattern. *)
Module PyRe.

Inductive atom : Type :=
| Chr (c : ascii)
| Dot.

Inductive quant : Type :=
| One
| Star
| Plus
| Opt.

Inductive regex : Type :=
| Eps
| Single (a : atom) (q : quant)
| Cat (r1 r2 : regex)
| Alt (r1 r2 : regex)
| Group (cap : option nat) (r : regex).
      (* [cap = Some i]: the capturing group that fills [groups()[i]];
         [cap = None]: a non-capturing group *)

(** A compiled pattern. *)
Record compiled : Type := {
  ignorecase : bool;
  ngroups : nat;
  body : regex
}.

(** ** Parsing *)

(** The parser reads the pattern once, left to right.  A [frame] holds
    what has been read of one parenthesis level: the finished
    alternatives and the items of the alternative being read, both most
    recent first. *)
Record frame : Type := {
  f_cap : option nat;
  f_alts : list regex;
  f_seq : list regex
}.

Definition fresh (cap : option nat) : frame :=
  {| f_cap := cap; f_alts := []; f_seq := [] |}.

Definition push_item (r : regex) (f : frame) : frame :=
  {| f_cap := f_cap f; f_alts := f_alts f; f_seq := r :: f_seq f |}.

Definition seq_regex (items : list regex) : regex :=
  foldr Cat Eps (rev items).

Definition next_alt (f : frame) : frame :=
  {| f_cap := f_cap f;
     f_alts := seq_regex (f_seq f) :: f_alts f;
     f_seq := [] |}.

Definition frame_regex (f : frame) : regex :=
  foldl (λ acc a, Alt a acc) (seq_regex (f_seq f)) (f_alts f).

(** A quantifier applies to the single character just read. *)
Definition quantify (q : quant) (f : frame) : option frame :=
  match f_seq f with
  | Single a One :: rest =>
      Some {| f_cap := f_cap f; f_alts := f_alts f;
              f_seq := Single a q :: rest |}
  | _ => None
  end.

Definition is_punct (c : ascii) : bool :=
  let n := N_of_ascii c in
  ((33 <=? n) && (n <=? 47) || (58 <=? n) && (n <=? 64)
   || (91 <=? n) && (n <=? 96) || (123 <=? n) && (n <=? 126))%N.

(** Special characters of the pattern syntax that the fragment omits. *)
Definition left_out (c : ascii) : bool :=
  Ascii.eqb c "[" || Ascii.eqb c "{" || Ascii.eqb c "^" || Ascii.eqb c "$".

Fixpoint parse_from (s : string) (n : nat) (cur : frame) (stack : list frame)
  : option (nat * regex) :=
  match s with
  | EmptyString =>
      match stack with
      | [] => Some (n, frame_regex cur)
      | _ :: _ => None
      end
  | String c s' =>
      if Ascii.eqb c "(" then
        match s' with
        | String q s'' =>
            if Ascii.eqb q "?" then
              match s'' with
              | String k s3 =>
                  if Ascii.eqb k ":"
                  then parse_from s3 n (fresh None) (cur :: stack)
                  else None
              | EmptyString => None
              end
            else parse_from s' (S n) (fresh (Some n)) (cur :: stack)
        | EmptyString => None
        end
      else if Ascii.eqb c ")" then
        match stack with
        | [] => None
        | parent :: stack' =>
            parse_from s' n
              (push_item (Group (f_cap cur) (frame_regex cur)) parent) stack'
        end
      else if Ascii.eqb c "|" then parse_from s' n (next_alt cur) stack
      else if Ascii.eqb c "*" then
        match quantify Star cur with
        | Some f => parse_from s' n f stack
        | None => None
        end
      else if Ascii.eqb c "+" then
        match quantify Plus cur with
        | Some f => parse_from s' n f stack
        | None => None
        end
      else if Ascii.eqb c "?" then
        match quantify Opt cur with
        | Some f => parse_from s' n f stack
        | None => None
        end
      else if Ascii.eqb c "." then
        parse_from s' n (push_item (Single Dot One) cur) stack
      else if Ascii.eqb c "\" then
        match s' with
        | String e s'' =>
            if is_punct e
            then parse_from s'' n (push_item (Single (Chr e) One) cur) stack
            else None
        | EmptyString => None
        end
      else if left_out c then None
      else parse_from s' n (push_item (Single (Chr c) One) cur) stack
  end.

Definition compile_with (ic : bool) (s : string) : option compiled :=
  match parse_from s 0 (fresh None) [] with
  | Some (n, r) => Some {| ignorecase := ic; ngroups := n; body := r |}
  | None => None
  end.

(** [strip pre s] is what follows [pre] in [s], when [s] begins with it. *)
Fixpoint strip (pre s : string) : option string :=
  match pre, s with
  | EmptyString, _ => Some s
  | String a pre', String b s' =>
      if Ascii.eqb a b then strip pre' s' else None
  | String _ _, EmptyString => None
  end.

(** Matching is case-sensitive unless the pattern opens with [(?i)]. *)
Definition parse (p : string) : option compiled :=
  match strip "(?i)" p with
  | Some rest => compile_with true rest
  | None => compile_with false p
  end.

(** ** Matching *)

(** Lower case of a character in the range 0..255. *)
Definition lower (c : ascii) : ascii :=
  let n := N_of_ascii c in
  if ((65 <=? n) && (n <=? 90)
      || (192 <=? n) && (n <=? 222) && negb (n =? 215))%N
  then ascii_of_N (n + 32)
  else c.

Definition newline : ascii := ascii_of_N 10.

(** Whether a character of the input is accepted by an atom. *)
Definition accepts (ic : bool) (a : atom) (c : ascii) : bool :=
  match a with
  | Dot => negb (Ascii.eqb c newline)
  | Chr x => if ic then Ascii.eqb (lower c) (lower x) else Ascii.eqb c x
  end.

(** The text between the start of [s] and its suffix [s']. *)
Definition consumed (s s' : string) : string :=
  substring 0 (String.length s - String.length s') s.

Section matcher.
Context {T : Type}.

Definition orelse (x y : option T) : option T :=
  match x with
  | Some _ => x
  | None => y
  end.

(** Greedy repetition of one atom: take every character that is
    accepted, then hand ever shorter runs to the continuation. *)
Fixpoint greedy (ok : ascii → bool) (s : string) (k : string → option T)
  : option T :=
  match s with
  | String c s' => if ok c then orelse (greedy ok s' k) (k s) else k s
  | EmptyString => k s
  end.

Definition single (ok : ascii → bool) (q : quant) (s : string)
    (k : string → option T) : option T :=
  match q, s with
  | One, String c s' => if ok c then k s' else None
  | One, EmptyString => None
  | Star, _ => greedy ok s k
  | Plus, String c s' => if ok c then greedy ok s' k else None
  | Plus, EmptyString => None
  | Opt, String c s' => if ok c then orelse (k s') (k s) else k s
  | Opt, EmptyString => k s
  end.

Fixpoint walk (ic : bool) (r : regex) (s : string) (caps : captures)
    (k : string → captures → option T) : option T :=
  match r with
  | Eps => k s caps
  | Single a q => single (accepts ic a) q s (λ s', k s' caps)
  | Cat r1 r2 => walk ic r1 s caps (λ s' caps', walk ic r2 s' caps' k)
  | Alt r1 r2 => orelse (walk ic r1 s caps k) (walk ic r2 s caps k)
  | Group cap r1 =>
      walk ic r1 s caps (λ s' caps',
        k s' match cap with
             | Some i => <[i := Some (consumed s s')]> caps'
             | None => caps'
             end)
  end.
End matcher.

(** Run a compiled pattern at position 0 of [s]. *)
Definition exec (c : compiled) (s : string) : option Match :=
  walk (ignorecase c) (body c) s (replicate (ngroups c) None)
    (λ s' caps,
       Some {| m_end := String.length s - String.length s'; groups := caps |}).

(** [re.match(p, s)] *)
Definition re_match (p s : string) : outcome (option Match) :=
  match parse p with
  | Some c => Return (exec c s)
  | None => Unmodelled
  end.

(** ** What a pattern denotes

    The set of strings a pattern matches in full, independent of the
    order in which the matcher explores them. *)

Fixpoint all_accepted (ok : ascii → bool) (w : string) : bool :=
  match w with
  | EmptyString => true
  | String c w' => ok c && all_accepted ok w'
  end.

Definition quant_allows (q : quant) (n : nat) : Prop :=
  match q with
  | One => n = 1
  | Star => True
  | Plus => 1 ≤ n
  | Opt => n ≤ 1
  end.

Fixpoint lang (ic : bool) (r : regex) (w : string) : Prop :=
  match r with
  | Eps => w = EmptyString
  | Single a q =>
      all_accepted (accepts ic a) w = true ∧ quant_allows q (String.length w)
  | Cat r1 r2 =>
      ∃ w1 w2, w = String.append w1 w2 ∧ lang ic r1 w1 ∧ lang ic r2 w2
  | Alt r1 r2 => lang ic r1 w ∨ lang ic r2 w
  | Group _ r1 => lang ic r1 w
  end.

Definition cap_bit (cap : option nat) : nat :=
  match cap with
  | Some _ => 1
  | None => 0
  end.

(** The number of capturing groups written in a pattern. *)
Fixpoint count_caps (r : regex) : nat :=
  match r with
  | Eps | Single _ _ => 0
  | Cat r1 r2 | Alt r1 r2 => count_caps r1 + count_caps r2
  | Group cap r1 => cap_bit cap + count_caps r1
  end.

Fixpoint caps_of (l : list regex) : nat :=
  match l with
  | [] => 0
  | r :: l' => count_caps r + caps_of l'
  end.

(** The capturing groups held by the frames of the parser; the bottom
    frame is the pattern as a whole and is no group. *)
Definition items (f : frame) : nat := caps_of (f_alts f) + caps_of (f_seq f).

Fixpoint weight (cur : frame) (stack : list frame) : nat :=
  match stack with
  | [] => items cur
  | parent :: stack' =>
      cap_bit (f_cap cur) + items cur + weight parent stack'
  end.

End PyRe.

(* ===================================================================== *)
(** * The library functions the connector calls *)
(* ===================================================================== *)

(** [re.match] and the random generator belong to Python's library, not to
    the repository.  The connector is modelled over any implementation of
    them; module [PyRe] and [tape_lib] further down give concrete ones. *)
Class PyLib : Type := {
  (** the state of the [random] module's generator *)
  rng : Type;
  (** [random._randbelow(n)]: a number and the generator's next state *)
  randbelow : nat → rng → nat * rng;
  (** [re.match(pattern, string)]: a match object, [None], or [re.error] *)
  re_match : string → string → outcome (option Match)
}.

(** The generator keeps its promise: [_randbelow(n)] is below [n]. *)
Definition randbelow_in_range `{PyLib} : Prop :=
  ∀ n g, 0 < n → (randbelow n g).1 < n.

(* ===================================================================== *)
(** * The monad of connector methods *)
(* ===================================================================== *)

Section connector.
Context `{PyLib}.

(** Everything a method can read or change. *)
Record world : Type := {
  self : RegexConnector;
  entropy : rng
}.

Definition M (A : Type) : Type := world → outcome A * world.

#[export] Instance M_ret : MRet M := λ A a w, (Return a, w).
#[export] Instance M_bind : MBind M := λ A B f c w,
  match c w with
  | (Return a, w') => f a w'
  | (Raise e, w') => (Raise e, w')
  | (Unmodelled, w') => (Unmodelled, w')
  end.

(** A library call that does not touch the world. *)
Definition lift {A} (o : outcome A) : M A := λ w, (o, w).
Definition raise {A} (e : exn) : M A := lift (Raise e).

(** [self.intent_list] and [self.response_dict]. *)
Definition get_intent_list : M (list PatternRule) :=
  λ w, (Return (intent_list (self w)), w).
Definition get_response_dict : M (gmap string entry) :=
  λ w, (Return (response_dict (self w)), w).

(** [random.choice(seq)]: [IndexError] on an empty sequence, else
    [seq[self._randbelow(len(seq))]]. *)
Definition choice (seq : list string) : M string := λ w,
  match seq with
  | [] => (Raise IndexError, w)
  | _ :: _ =>
      let '(i, g) := randbelow (length seq) (entropy w) in
      let w' := {| self := self w; entropy := g |} in
      match seq !! i with
      | Some x => (Return x, w')
      | None => (Raise IndexError, w')
      end
  end.

(* ===================================================================== *)
(** * The methods of [RegexConnector] *)
(* ===================================================================== *)

(** The body of [for item in self.intent_list: ...] together with the
    [return (None, None)] that follows the loop. *)
Fixpoint _process_loop (items : list PatternRule) (message : string)
  : M MatchResult :=
  match items with
  | [] => mret (None, None)
  | item :: items' =>
      m ← lift (re_match (pattern item) message);
      match m with
      | Some mt => mret (Some (intent item), Some (groups mt))
      | None => _process_loop items' message
      end
  end.

Definition _process (message : string) : M MatchResult :=
  items ← get_intent_list;
  _process_loop items message.

(** [self.response_dict.get(intent)]; the keys of a dictionary read from
    JSON are strings, so [None] is never among them. *)
Definition dict_get (d : gmap string entry) (key : option string)
  : option entry :=
  match key with
  | Some k => d !! k
  | None => None
  end.

(** Truth value of the result of [.get]: [None] and the empty dictionary
    are false. *)
Definition entry_truthy (e : option entry) : option entry :=
  match e with
  | Some d => if decide (d = ∅) then None else Some d
  | None => None
  end.

(** Truth value of [entities]: [None] and the empty tuple are false. *)
Definition entities_truthy (entities : option captures) : option captures :=
  match entities with
  | Some (_ :: _) => entities
  | Some [] | None => None
  end.

(** [response_list['messages']] *)
Definition getitem_messages (e : entry) : M (list string) :=
  match e !! "messages" with
  | Some l => mret l
  | None => raise KeyError
  end.

Definition fallback : string :=
  "Could not figure out a proper response. Please try again.".

Definition _postprocess (intent_tuple : MatchResult) : M string :=
  let '(intent, entities) := intent_tuple in
  d ← get_response_dict;
  match entry_truthy (dict_get d intent) with
  | Some response_list =>
      messages ← getitem_messages response_list;
      response ← choice messages;
      match entities_truthy entities with
      | Some args => lift (Format.str_format response args)
      | None => mret response
      end
  | None => mret fallback
  end.

(** Modelled from the spec: [Connector.respond], the method of the base
    class [pybotframework.connector.Connector], which is not among the
    sources.  The spec gives it as: obtain [(intent, captures)] from the
    classification step, then build the response from them. *)
Definition respond (message : string) : M string :=
  t ← _process message;
  _postprocess t.

End connector.

(* ===================================================================== *)
(** * A concrete library *)
(* ===================================================================== *)

(** A random generator that replays a tape of numbers, reduced modulo the
    bound asked for; an exhausted tape yields 0. *)
Definition tape_randbelow (n : nat) (g : list nat) : nat * list nat :=
  match g with
  | [] => (0, [])
  | x :: g' => (x mod n, g')
  end.

Definition tape_lib : PyLib := {|
  rng := list nat;
  randbelow := tape_randbelow;
  re_match := PyRe.re_match
|}.

Definition tape_world (c : RegexConnector) (g : list nat) : @world tape_lib :=
  @Build_world tape_lib c g.

(* ===================================================================== *)
(** * Vocabulary of the properties *)
(* ===================================================================== *)

Section vocabulary.
Context `{PyLib}.

(** [re.match] returned [None] for the rule's pattern. *)
Definition no_match (message : string) (item : PatternRule) : Prop :=
  re_match (pattern item) message = Return None.

(** [item] is the first rule of [items] whose pattern matches [message],
    with match object [mt]: every rule before it was tried and did not
    match. *)
Definition first_match (items : list PatternRule) (message : string)
    (item : PatternRule) (mt : Match) : Prop :=
  ∃ before after,
    items = before ++ item :: after
    ∧ Forall (no_match message) before
    ∧ re_match (pattern item) message = Return (Some mt).

(** The world after one draw from the generator for a list of [n]. *)
Definition after_draw (n : nat) (w : world) : world :=
  {| self := self w; entropy := (randbelow n (entropy w)).2 |}.

(** The template that [random.choice] picks in world [w]. *)
Definition drawn (messages : list string) (w : world) : option string :=
  messages !! (randbelow (length messages) (entropy w)).1.
End vocabulary.

(** ** Example connectors *)

Definition eliza : RegexConnector := {|
  intent_list :=
    [ {| intent := "need"; pattern := "I need (.*)" |};
      {| intent := "hello"; pattern := "(?i)(hi|hello)" |};
      {| intent := "bye"; pattern := "bye" |} ];
  response_dict :=
    {[ "need" := {[ "messages" := ["Why do you need {}?"] ]};
       "hello" := {[ "messages" := ["Hello, how are you feeling today?";
                                    "Hi {}"] ]};
       "bye" := {[ "messages" := ["Goodbye {}"] ]} ]}
|}.

(** Two rules, the first matching a prefix of what the second matches;
    only the second intent has responses. *)
Definition shadowed : RegexConnector := {|
  intent_list :=
    [ {| intent := "i"; pattern := "I" |};
      {| intent := "need"; pattern := "I need (.*)" |} ];
  response_dict := {[ "need" := {[ "messages" := ["Why do you need {}?"] ]} ]}
|}.

(** Entries that are present but hold no usable template list. *)
Definition hollow : RegexConnector := {|
  intent_list :=
    [ {| intent := "empty"; pattern := "a" |};
      {| intent := "void"; pattern := "b" |};
      {| intent := "other"; pattern := "c" |};
      {| intent := "two"; pattern := "(d)" |} ];
  response_dict :=
    {[ "empty" := {[ "messages" := [] ]};
       "void" := ∅;
       "other" := {[ "texts" := ["x"] ]};
       "two" := {[ "messages" := ["{} and {}"] ]} ]}
|}.

(** ** Two statements that the code does not satisfy as they stand *)

(** "Whenever the chosen template has more placeholders than the match has
    captures, [respond] fails" -- for every number of captures, zero
    included. *)
Definition mismatch_always_fails : Prop :=
  ∀ (L : PyLib) (w : world) (message : string) (item : PatternRule)
    (mt : Match) (e : entry) (messages : list string)
    (segs : list Format.segment),
    first_match (intent_list (self w)) message item mt →
    response_dict (self w) !! intent item = Some e →
    e !! "messages" = Some messages →
    drawn messages w = Some (Format.render segs) →
    Format.all_plain segs = true →
    length (groups mt) < Format.holes segs →
    ∃ x w', respond message w = (Raise x, w').

(** "[(hi|hello)], matched without regard to case against
    [Hello, Alain], matches and carries zero captures." *)
Definition hello_without_captures : Prop :=
  ∃ mt, PyRe.re_match "(?i)(hi|hello)" "Hello, Alain" = Return (Some mt)
        ∧ groups mt = [].

(* ===================================================================== *)
(** * The Word2Vec tutorial: [build_dataset] *)
(* ===================================================================== *)

(** [build_dataset] of the "TensorFlow Word2Vec" notebook turns a list of
    words into a list of vocabulary indices.  A Python [dict] is modelled
    as an association list in insertion order; assigning to a key that is
    present keeps the key's place.  [collections.Counter] counts the words
    in the order in which they are first met, and [most_common] is a
    stable sort by decreasing count cut to its first [n] items (for a [dict]
    that keeps insertion order, as dictionaries do from Python 3.7 on). *)
Module Word2Vec.

Section pydict.
Context {K V : Type} `{EqDecision K}.

(** [d.get(k)], which also decides [k in d]. *)
Fixpoint getitem (d : list (K * V)) (k : K) : option V :=
  match d with
  | [] => None
  | (k', v) :: d' => if decide (k = k') then Some v else getitem d' k
  end.

(** [d[k] = v] *)
Fixpoint setitem (d : list (K * V)) (k : K) (v : V) : list (K * V) :=
  match d with
  | [] => [(k, v)]
  | (k', v') :: d' =>
      if decide (k = k') then (k', v) :: d' else (k', v') :: setitem d' k v
  end.

(** [dict(pairs)]: later pairs overwrite earlier ones. *)
Definition dict_of (pairs : list (K * V)) : list (K * V) :=
  foldl (λ d kv, setitem d kv.1 kv.2) [] pairs.
End pydict.

(** [collections.Counter(words)] *)
Definition counter (words : list string) : list (string * Z) :=
  foldl (λ c w, setitem c w (default 0 (getitem c w) + 1)%Z) [] words.

(** Put [x], which came before all of [l], into the sorted list [l]:
    after the items with a greater count and before those with the same. *)
Fixpoint insert_desc (x : string * Z) (l : list (string * Z))
  : list (string * Z) :=
  match l with
  | [] => [x]
  | y :: l' => if (x.2 <? y.2)%Z then y :: insert_desc x l' else x :: y :: l'
  end.

(** [sorted(items, key=itemgetter(1), reverse=True)] *)
Definition sorted_desc (items : list (string * Z)) : list (string * Z) :=
  foldr insert_desc [] items.

(** [c.most_common(n)]: nothing for [n <= 0]. *)
Definition most_common (n : Z) (c : list (string * Z)) : list (string * Z) :=
  if (n <=? 0)%Z then [] else take (Z.to_nat n) (sorted_desc c).

Definition UNK : string := "UNK".

(** The loop [for word, _ in count: dictionary[word] = len(dictionary)]. *)
Definition number_words (count : list (string * Z)) : list (string * nat) :=
  foldl (λ dictionary item, setitem dictionary item.1 (length dictionary))
        [] count.

(** The loop over [words] that fills [data] and counts the unknown words. *)
Definition index_words (dictionary : list (string * nat))
    (words : list string) : list nat * Z :=
  foldl (λ '(data, unk_count) word,
           match getitem dictionary word with
           | Some index => (data ++ [index], unk_count)
           | None => (data ++ [0], (unk_count + 1)%Z)
           end)
        ([], 0%Z) words.

Definition build_dataset (words : list string) (n_words : Z)
  : list nat * list (string * Z) * list (string * nat) * list (nat * string) :=
  let count := (UNK, (-1)%Z) :: most_common (n_words - 1) (counter words) in
  let dictionary := number_words count in
  let '(data, unk_count) := index_words dictionary words in
  let count := <[0 := (UNK, unk_count)]> count in
  let reversed_dictionary := dict_of (zip dictionary.*2 dictionary.*1) in
  (data, count, dictionary, reversed_dictionary).

(** The four results by name. *)
Definition data_of (words : list string) (n_words : Z) : list nat :=
  (build_dataset words n_words).1.1.1.
Definition count_of (words : list string) (n_words : Z) : list (string * Z) :=
  (build_dataset words n_words).1.1.2.
Definition dictionary_of (words : list string) (n_words : Z)
  : list (string * nat) :=
  (build_dataset words n_words).1.2.
Definition reversed_of (words : list string) (n_words : Z)
  : list (nat * string) :=
  (build_dataset words n_words).2.

(** How often [w] occurs in [words]. *)
Fixpoint occurrences (w : string) (words : list string) : Z :=
  match words with
  | [] => 0
  | x :: words' =>
      ((if decide (w = x) then 1 else 0) + occurrences w words')%Z
  end.

(** The sum of the counts of a [count] list. *)
Definition total (count : list (string * Z)) : Z :=
  foldr (λ item acc, (item.2 + acc)%Z) 0%Z count.

End Word2Vec.

(** ** Vocabulary of the properties of [build_dataset] *)

Module Word2VecAux.
Import Word2Vec.

(** Counts do not increase along the list. *)
Fixpoint desc (l : list (string * Z)) : Prop :=
  match l with
  | [] => True
  | x :: l' => Forall (λ y, (y.2 ≤ x.2)%Z) l' ∧ desc l'
  end.

(** The items that [most_common] leaves out. *)
Definition rest_of (n : Z) (c : list (string * Z)) : list (string * Z) :=
  if (n <=? 0)%Z then sorted_desc c else drop (Z.to_nat n) (sorted_desc c).

(** The words [ks] numbered from [o] on, and the same read backwards. *)
Fixpoint enum (o : nat) (ks : list string) : list (string * nat) :=
  match ks with
  | [] => []
  | k :: ks' => (k, o) :: enum (S o) ks'
  end.

Fixpoint unenum (o : nat) (ks : list string) : list (nat * string) :=
  match ks with
  | [] => []
  | k :: ks' => (o, k) :: unenum (S o) ks'
  end.

(** How many of [words] the dictionary does not hold. *)
Fixpoint misses (dictionary : list (string * nat)) (words : list string) : Z :=
  match words with
  | [] => 0
  | w :: words' =>
      ((if getitem dictionary w is Some _ then 0 else 1)
       + misses dictionary words')%Z
  end.

(** How many of [words] are among [ks]. *)
Fixpoint hits (ks : list string) (words : list string) : Z :=
  match words with
  | [] => 0
  | w :: words' => ((if decide (w ∈ ks) then 1 else 0) + hits ks words')%Z
  end.

(** How many entries of [data] are 0. *)
Fixpoint zeros (data : list nat) : Z :=
  match data with
  | [] => 0
  | i :: data' => ((if decide (i = 0%nat) then 1 else 0) + zeros data')%Z
  end.

End Word2VecAux.

(* ===================================================================== *)
(** * The Word2Vec tutorial: [generate_batch] *)
(* ===================================================================== *)

(** [generate_batch] cuts skip-gram training pairs out of [data]: for each
    position it emits the word there, [num_skips] times, each time paired
    with a word at most [skip_window] places away.  It keeps its place in
    the module-level variable [data_index] and asks [random.randint] for
    the context positions.

    The arguments [batch_size], [num_skips] and [skip_window] are taken to
    be non-negative.  A method runs on the [globals] and ends in a
    [result]: a value, an exception, or one of two outcomes that stand for
    what the model does not follow to the end -- a [while] loop that has
    not found its target within the [fuel] draws it is given, and the
    storing of a number that does not fit the [int32] cells of the
    arrays. *)
Module Batch.

Inductive error : Type :=
| AssertionError
| ZeroDivisionError
| IndexError.

Section generate_batch.
Context `{PyLib}.

(** The module's variable [data_index] and the state of [random]. *)
Record globals : Type := {
  data_index : nat;
  generator : rng
}.

Inductive result (A : Type) : Type :=
| Done (a : A) (s : globals)
| Fail (e : error) (s : globals)
| Spinning
| Beyond.
Arguments Done {A} a s.
Arguments Fail {A} e s.
Arguments Spinning {A}.
Arguments Beyond {A}.

Definition M (A : Type) : Type := globals → result A.

#[export] Instance M_ret : MRet M := λ A a s, Done a s.
#[export] Instance M_bind : MBind M := λ A B f c s,
  match c s with
  | Done a s' => f a s'
  | Fail e s' => Fail e s'
  | Spinning => Spinning
  | Beyond => Beyond
  end.

Definition throw {A} (e : error) : M A := λ s, Fail e s.

Definition get_index : M nat := λ s, Done (data_index s) s.
Definition set_index (i : nat) : M unit := λ s,
  Done tt {| data_index := i; generator := generator s |}.

(** [random.randint(0, span - 1)], that is [_randbelow(span)]. *)
Definition randint0 (span : nat) : M nat := λ s,
  let '(t, g) := randbelow span (generator s) in
  Done t {| data_index := data_index s; generator := g |}.

(** [assert cond] *)
Definition assert (cond : bool) : M unit :=
  if cond then mret tt else throw AssertionError.

(** [a % b] and [a // b] on non-negative integers. *)
Definition pymod (a b : nat) : M nat :=
  if decide (b = 0) then throw ZeroDivisionError else mret (a mod b).
Definition pydiv (a b : nat) : M nat :=
  if decide (b = 0) then throw ZeroDivisionError else mret (a / b).

(** [seq[k]] on a list or a deque. *)
Definition getitem {A} (l : list A) (k : nat) : M A :=
  match l !! k with
  | Some x => mret x
  | None => throw IndexError
  end.

Definition int32 (v : Z) : bool := ((- 2 ^ 31 <=? v) && (v <? 2 ^ 31))%Z.

(** [arr[k] = v] on an [int32] array; a cell that was never written
    holds [None]. *)
Definition store (arr : list (option Z)) (k : nat) (v : Z)
  : M (list (option Z)) :=
  if decide (k < length arr) then
    if int32 v then mret (<[k := Some v]> arr) else λ _, Beyond
  else throw IndexError.

(** [buffer.append(x)] on a [deque] with [maxlen]. *)
Definition deque_append (maxlen : nat) (buffer : list Z) (x : Z) : list Z :=
  let b := buffer ++ [x] in
  if decide (maxlen < length b) then drop 1 b else b.

(** The two lines that every loop repeats:
    [buffer.append(data[data_index])] and
    [data_index = (data_index + 1) % len(data)]. *)
Definition advance (data : list Z) (span : nat) (buffer : list Z)
  : M (list Z) :=
  i ← get_index;
  x ← getitem data i;
  i' ← pymod (i + 1) (length data);
  _ ← set_index i';
  mret (deque_append span buffer x).

(** [for _ in range(n)] around [advance]. *)
Fixpoint fill (n : nat) (data : list Z) (span : nat) (buffer : list Z)
  : M (list Z) :=
  match n with
  | 0 => mret buffer
  | S n' => buffer' ← advance data span buffer; fill n' data span buffer'
  end.

(** [while target in targets_to_avoid: target = random.randint(0, span - 1)],
    with at most [fuel] draws. *)
Fixpoint pick (fuel : nat) (span : nat) (target : nat) (avoid : list nat)
  : M nat :=
  if decide (target ∈ avoid) then
    match fuel with
    | 0 => λ _, Spinning
    | S fuel' => t ← randint0 span; pick fuel' span t avoid
    end
  else mret target.

(** [for j in range(num_skips)], with [n] rounds to go from [j] on. *)
Fixpoint skips (fuel n j : nat) (i num_skips skip_window span : nat)
    (buffer : list Z) (target : nat) (targets_to_avoid : list nat)
    (batch context : list (option Z))
  : M (list (option Z) * list (option Z)) :=
  match n with
  | 0 => mret (batch, context)
  | S n' =>
      target ← pick fuel span target targets_to_avoid;
      let targets_to_avoid := targets_to_avoid ++ [target] in
      x ← getitem buffer skip_window;
      batch ← store batch (i * num_skips + j) x;
      y ← getitem buffer target;
      context ← store context (i * num_skips + j) y;
      skips fuel n' (S j) i num_skips skip_window span buffer target
        targets_to_avoid batch context
  end.

(** [for i in range(batch_size // num_skips)], with [n] rounds to go from
    [i] on. *)
Fixpoint rows (fuel n i : nat) (data : list Z)
    (num_skips skip_window span : nat)
    (buffer : list Z) (batch context : list (option Z))
  : M (list (option Z) * list (option Z)) :=
  match n with
  | 0 => mret (batch, context)
  | S n' =>
      '(batch, context) ← skips fuel num_skips 0 i num_skips skip_window span
                            buffer skip_window [skip_window] batch context;
      buffer ← advance data span buffer;
      rows fuel n' (S i) data num_skips skip_window span buffer batch context
  end.

Definition generate_batch (fuel : nat) (data : list Z)
    (batch_size num_skips skip_window : nat)
  : M (list (option Z) * list (option Z)) :=
  r ← pymod batch_size num_skips;
  _ ← assert (bool_decide (r = 0));
  _ ← assert (bool_decide (num_skips ≤ 2 * skip_window));
  let batch := replicate batch_size None in
  let context := replicate batch_size None in
  let span := 2 * skip_window + 1 in
  buffer ← fill span data span [];
  n ← pydiv batch_size num_skips;
  '(batch, context) ← rows fuel n 0 data num_skips skip_window span
                        buffer batch context;
  i ← get_index;
  _ ← (if decide (length data = 0) then throw ZeroDivisionError
       else set_index (Z.to_nat ((Z.of_nat i + Z.of_nat (length data)
                                  - Z.of_nat span)
                                 `mod` Z.of_nat (length data))));
  mret (batch, context).

End generate_batch.

Arguments Done {_ A} a s.
Arguments Fail {_ A} e s.
Arguments Spinning {_ A}.
Arguments Beyond {_ A}.

End Batch.

(** A generator that counts: the [k]-th draw below [n] is [k mod n]. *)
Definition counting_lib : PyLib := {|
  rng := nat;
  randbelow := λ n k, (k mod n, S k);
  re_match := PyRe.re_match
|}.

Module BatchAux.
Import Batch.

(** The word of [data] at a position counted round the end of the list. *)
Definition word (data : list Z) (p : nat) : Z :=
  default 0%Z (data !! (p mod length data)).

(** The [span] words from position [p] on. *)
Definition window (data : list Z) (span p : nat) : list Z :=
  map (word data) (seq p span).

(** The generator lets the [while] loop end within [fuel] draws whenever
    some position of the buffer is still free. *)
Definition finds `{PyLib} (fuel span : nat) : Prop :=
  ∀ target avoid s,
    target ∈ avoid → (∃ v, v < span ∧ v ∉ avoid) →
    ∃ t s', pick fuel span target avoid s = Done t s' ∧ t < span.

(** The context position that the cell [k] of a batch was paired with. *)
Definition target_of (tss : list (list nat)) (num_skips k : nat) : nat :=
  default 0 (tss !! (k / num_skips) ≫= λ ts, ts !! (k mod num_skips)).

End BatchAux.

(* ===================================================================== *)
(** * More connectors *)
(* ===================================================================== *)

(** [tape_lib] with one malformed pattern made explicit: an unclosed
    parenthesis does not compile, and [re.match] raises [re.error] on it. *)
Definition erring_lib : PyLib := {|
  rng := list nat;
  randbelow := tape_randbelow;
  re_match := λ p s,
    if decide (p = "(") then Raise re_error else PyRe.re_match p s
|}.

(** A connector with a malformed pattern between two sound rules. *)
Definition flawed : RegexConnector := {|
  intent_list :=
    [ {| intent := "need"; pattern := "I need (.*)" |};
      {| intent := "oops"; pattern := "(" |};
      {| intent := "bye"; pattern := "bye" |} ];
  response_dict := {[ "need" := {[ "messages" := ["Why do you need {}?"] ]};
                      "bye" := {[ "messages" := ["Goodbye"] ]} ]}
|}.

(** The connector [c] with the rules [extra] added after its own. *)
Definition with_rules_appended (c : RegexConnector)
    (extra : list PatternRule) : RegexConnector :=
  {| intent_list := intent_list c ++ extra;
     response_dict := response_dict c |}.

(* ===================================================================== *)
(** * Facts about strings *)
(* ===================================================================== *)

Lemma append_assoc (a b c : string) :
  String.append (String.append a b) c = String.append a (String.append b c).
Proof. induction a as [|x a IH]; simpl; [done | by rewrite IH]. Qed.

Lemma length_append (a b : string) :
  String.length (String.append a b) = String.length a + String.length b.
Proof. induction a as [|x a IH]; simpl; [done | by rewrite IH]. Qed.

(* ===================================================================== *)
(** * The matcher is anchored at position 0 *)
(* ===================================================================== *)

Module PyReFacts.
Import PyRe.

Section sound.
Context {T : Type}.
Implicit Types (k : string → option T) (s w : string).

Lemma orelse_Some (x y : option T) (v : T) :
  orelse x y = Some v → x = Some v ∨ y = Some v.
Proof. destruct x; simpl; auto. Qed.

Lemma greedy_sound ok s k v :
  greedy ok s k = Some v →
  ∃ pre s', s = String.append pre s' ∧ all_accepted ok pre = true
            ∧ k s' = Some v.
Proof.
  induction s as [|c s IH]; simpl; intros Hg.
  - exists EmptyString, EmptyString. done.
  - destruct (ok c) eqn:Hc.
    + apply orelse_Some in Hg as [Hg|Hg].
      * destruct (IH Hg) as (pre & s' & -> & Hpre & Hk).
        exists (String c pre), s'. simpl. rewrite Hc, Hpre. done.
      * exists EmptyString, (String c s). done.
    + exists EmptyString, (String c s). done.
Qed.

Lemma single_sound ok q s k v :
  single ok q s k = Some v →
  ∃ pre s', s = String.append pre s' ∧ all_accepted ok pre = true
            ∧ quant_allows q (String.length pre) ∧ k s' = Some v.
Proof.
  destruct q, s as [|c s]; simpl; try done.
  - destruct (ok c) eqn:Hc; [|done]. intros Hk.
    exists (String c EmptyString), s. simpl. rewrite Hc. done.
  - intros Hk. exists EmptyString, EmptyString. done.
  - intros Hg. change (greedy ok (String c s) k = Some v) in Hg.
    destruct (greedy_sound _ _ _ _ Hg) as (pre & s' & ? & ? & ?).
    exists pre, s'. done.
  - destruct (ok c) eqn:Hc; [|done]. intros Hg.
    destruct (greedy_sound _ _ _ _ Hg) as (pre & s' & -> & Hpre & Hk).
    exists (String c pre), s'. simpl. rewrite Hc, Hpre.
    repeat split; auto. lia.
  - intros Hk. exists EmptyString, EmptyString. simpl. auto with lia.
  - destruct (ok c) eqn:Hc.
    + intros Hk. apply orelse_Some in Hk as [Hk|Hk].
      * exists (String c EmptyString), s. simpl. rewrite Hc. done.
      * exists EmptyString, (String c s). simpl. auto with lia.
    + intros Hk. exists EmptyString, (String c s). simpl. auto with lia.
Qed.

Lemma walk_sound ic r : ∀ s caps (k : string → captures → option T) v,
  walk ic r s caps k = Some v →
  ∃ pre s' caps', s = String.append pre s' ∧ lang ic r pre
                  ∧ length caps' = length caps ∧ k s' caps' = Some v.
Proof.
  induction r as [|a q|r1 IH1 r2 IH2|r1 IH1 r2 IH2|cap r1 IH1];
    simpl; intros s caps k v Hw.
  - exists EmptyString, s, caps. done.
  - apply single_sound in Hw as (pre & s' & -> & Hpre & Hq & Hk).
    exists pre, s', caps. done.
  - apply IH1 in Hw as (p1 & s1 & c1 & -> & Hl1 & Hc1 & Hw).
    apply IH2 in Hw as (p2 & s2 & c2 & -> & Hl2 & Hc2 & Hk).
    exists (String.append p1 p2), s2, c2. rewrite append_assoc.
    repeat split; [by exists p1, p2 | congruence | done].
  - apply orelse_Some in Hw as [Hw|Hw].
    + apply IH1 in Hw as (pre & s' & c' & ? & ? & ? & ?).
      exists pre, s', c'. auto.
    + apply IH2 in Hw as (pre & s' & c' & ? & ? & ? & ?).
      exists pre, s', c'. auto.
  - apply IH1 in Hw as (pre & s' & c' & -> & Hl & Hc & Hk).
    exists pre, s',
      match cap with
      | Some i => <[i := Some (consumed (String.append pre s') s')]> c'
      | None => c'
      end.
    repeat split; [done | | exact Hk].
    destruct cap; [rewrite length_insert|]; done.
Qed.
End sound.

Section complete.
Context {T : Type}.
Implicit Types (k : string → option T) (s w : string).

Lemma orelse_is_Some_l (x y : option T) : is_Some x → is_Some (orelse x y).
Proof. by intros [v ->]. Qed.

Lemma orelse_is_Some_r (x y : option T) : is_Some y → is_Some (orelse x y).
Proof. destruct x; simpl; eauto. Qed.

(** A repetition can always stop where it stands. *)
Lemma greedy_fallback ok s k : is_Some (k s) → is_Some (greedy ok s k).
Proof.
  destruct s as [|c s]; simpl; [done|].
  destruct (ok c); [apply orelse_is_Some_r | done].
Qed.

Lemma greedy_complete ok pre post k :
  all_accepted ok pre = true → is_Some (k post) →
  is_Some (greedy ok (String.append pre post) k).
Proof.
  induction pre as [|c pre IH]; simpl; intros Hpre Hk.
  - by apply greedy_fallback.
  - apply andb_prop in Hpre as [-> Hpre].
    apply orelse_is_Some_l, IH; done.
Qed.

Lemma single_complete ok q pre post k :
  all_accepted ok pre = true → quant_allows q (String.length pre) →
  is_Some (k post) →
  is_Some (single ok q (String.append pre post) k).
Proof.
  intros Hpre Hq Hk. destruct q; simpl in Hq.
  - destruct pre as [|c [|??]]; simplify_eq/=.
    rewrite andb_true_r in Hpre. by rewrite Hpre.
  - change (is_Some (greedy ok (String.append pre post) k)).
    by apply greedy_complete.
  - destruct pre as [|c pre]; simpl in *; [lia|].
    apply andb_prop in Hpre as [-> Hpre]. by apply greedy_complete.
  - destruct pre as [|c [|??]]; simpl in *; [| |lia].
    + destruct post as [|c post]; simpl; [done|].
      destruct (ok c); [by apply orelse_is_Some_r | done].
    + rewrite andb_true_r in Hpre. rewrite Hpre.
      by apply orelse_is_Some_l.
Qed.

Lemma walk_complete ic r :
  ∀ pre post caps (k : string → captures → option T),
    lang ic r pre → (∀ caps', is_Some (k post caps')) →
    is_Some (walk ic r (String.append pre post) caps k).
Proof.
  induction r as [|a q|r1 IH1 r2 IH2|r1 IH1 r2 IH2|cap r1 IH1];
    simpl; intros pre post caps k Hl Hk.
  - subst pre. apply Hk.
  - destruct Hl as [Hpre Hq]. by apply single_complete.
  - destruct Hl as (w1 & w2 & -> & Hl1 & Hl2). rewrite append_assoc.
    apply IH1; [done|]. intros caps'. by apply IH2.
  - destruct Hl as [Hl|Hl].
    + apply orelse_is_Some_l. by apply IH1.
    + apply orelse_is_Some_r. by apply IH2.
  - apply IH1; [done|]. intros caps'. apply Hk.
Qed.
End complete.

(** ** Counting groups *)

Lemma caps_of_app l1 l2 : caps_of (l1 ++ l2) = caps_of l1 + caps_of l2.
Proof. induction l1 as [|r l1 IH]; simpl; [done | rewrite IH; lia]. Qed.

Lemma caps_of_rev l : caps_of (rev l) = caps_of l.
Proof.
  induction l as [|r l IH]; simpl; [done|].
  rewrite caps_of_app, IH. simpl. lia.
Qed.

Lemma count_seq_regex l : count_caps (seq_regex l) = caps_of l.
Proof.
  unfold seq_regex. rewrite <- (caps_of_rev l).
  induction (rev l) as [|r l' IH]; simpl; [done | by rewrite IH].
Qed.

Lemma count_alternatives alts : ∀ acc,
  count_caps (foldl (λ acc a, Alt a acc) acc alts)
  = caps_of alts + count_caps acc.
Proof.
  induction alts as [|a l IH]; intros acc; simpl; [done|].
  rewrite IH. simpl. lia.
Qed.

Lemma count_frame_regex f : count_caps (frame_regex f) = items f.
Proof.
  unfold frame_regex, items.
  by rewrite count_alternatives, count_seq_regex.
Qed.

Lemma weight_push r f stack :
  weight (push_item r f) stack = count_caps r + weight f stack.
Proof. destruct stack; simpl; unfold items; simpl; lia. Qed.

Lemma weight_next_alt f stack : weight (next_alt f) stack = weight f stack.
Proof.
  destruct stack; simpl; unfold items; simpl; rewrite count_seq_regex; lia.
Qed.

Lemma weight_quantify q f f' stack :
  quantify q f = Some f' → weight f' stack = weight f stack.
Proof.
  unfold quantify. destruct (f_seq f) as [|[|a []| | |] rest] eqn:Hs; try done.
  intros [= <-]. destruct stack; simpl; unfold items; simpl; rewrite Hs; done.
Qed.

Lemma weight_fresh cap cur stack :
  weight (fresh cap) (cur :: stack) = cap_bit cap + weight cur stack.
Proof. simpl. unfold items. simpl. lia. Qed.

(** The counter of the parser is the number of capturing groups. *)
Lemma parse_from_caps m : ∀ s n cur stack n' r,
  String.length s ≤ m →
  parse_from s n cur stack = Some (n', r) →
  count_caps r + n = n' + weight cur stack.
Proof.
  induction m as [|m IH]; intros s n cur stack n' r Hlen Hp;
    destruct s as [|c s]; simpl in *; try lia.
  - destruct stack; simplify_eq. simpl. rewrite count_frame_regex. lia.
  - destruct stack; simplify_eq. simpl. rewrite count_frame_regex. lia.
  - repeat case_match; simplify_eq.
    all: apply IH in Hp; [|simpl String.length in *; lia].
    all: rewrite ?weight_push, ?weight_next_alt, ?weight_fresh in Hp.
    all: simpl in *; rewrite ?count_frame_regex in Hp.
    all: try match goal with
           | Hq : quantify _ _ = Some _ |- _ =>
               apply (weight_quantify _ _ _ stack) in Hq
           end.
    all: lia.
Qed.

Lemma parse_groups p c : parse p = Some c → ngroups c = count_caps (body c).
Proof.
  unfold parse, compile_with. intros Hp.
  repeat case_match; simplify_eq; simpl.
  all: match goal with
       | Hf : parse_from _ _ _ _ = Some _ |- _ =>
           apply (parse_from_caps _ _ _ _ _ _ _ (le_n _)) in Hf
       end.
  all: simpl in *; unfold items in *; simpl in *; lia.
Qed.

(** The flag is set by the pattern alone. *)
Lemma parse_ignorecase p c :
  parse p = Some c → ignorecase c = true → ∃ rest, strip "(?i)" p = Some rest.
Proof.
  unfold parse, compile_with. intros Hp Hic.
  destruct (strip "(?i)" p) as [rest|]; [by exists rest|].
  repeat case_match; simplify_eq; done.
Qed.

Lemma strip_Some pre : ∀ s rest, strip pre s = Some rest → s = String.append pre rest.
Proof.
  induction pre as [|a pre IH]; intros [|b s] rest; simpl; try congruence.
  destruct (Ascii.eqb_spec a b); [|done]. intros ->%IH. by subst.
Qed.

(** Without the flag a literal accepts its own character only. *)
Lemma accepts_case_sensitive x c : accepts false (Chr x) c = true ↔ c = x.
Proof. simpl. apply Ascii.eqb_eq. Qed.

(** ** [exec]: a match is a prefix of the input *)

Lemma exec_anchored c s mt :
  exec c s = Some mt →
  ∃ pre post, s = String.append pre post
              ∧ lang (ignorecase c) (body c) pre
              ∧ m_end mt = String.length pre
              ∧ length (groups mt) = ngroups c.
Proof.
  unfold exec. intros (pre & s' & caps' & -> & Hl & Hc & Hk)%walk_sound.
  exists pre, s'. simplify_eq. simpl.
  rewrite length_append. rewrite length_replicate in Hc.
  repeat split; [done | lia | done].
Qed.

Lemma exec_prefix c pre post :
  lang (ignorecase c) (body c) pre → is_Some (exec c (String.append pre post)).
Proof.
  intros Hl. unfold exec.
  apply (walk_complete (T := Match)); [done|]. eauto.
Qed.

(** ** [re_match] *)

Lemma re_match_anchored p s mt :
  re_match p s = Return (Some mt) →
  ∃ c pre post, parse p = Some c
                ∧ s = String.append pre post
                ∧ lang (ignorecase c) (body c) pre
                ∧ m_end mt = String.length pre
                ∧ length (groups mt) = count_caps (body c).
Proof.
  unfold re_match. destruct (parse p) as [c|] eqn:Hp; [|done].
  intros [= (pre & post & ? & ? & ? & Hn)%exec_anchored].
  exists c, pre, post. rewrite <- (parse_groups _ _ Hp). done.
Qed.

Lemma re_match_prefix p c pre post :
  parse p = Some c → lang (ignorecase c) (body c) pre →
  ∃ mt, re_match p (String.append pre post) = Return (Some mt).
Proof.
  intros Hp Hl. unfold re_match. rewrite Hp.
  destruct (exec_prefix c pre post Hl) as [mt ->]. by exists mt.
Qed.

End PyReFacts.

(* ===================================================================== *)
(** * Formatting a template of literal text and [{}] markers *)
(* ===================================================================== *)

Module FormatFacts.
Import Format.

Lemma outcome_map_compose {A B C} (f : A → B) (g : B → C) (o : outcome A) :
  outcome_map g (outcome_map f o) = outcome_map (λ a, g (f a)) o.
Proof. by destruct o. Qed.

Lemma outcome_map_id {A} (f : A → A) (o : outcome A) :
  (∀ a, f a = a) → outcome_map f o = o.
Proof. intros Hf. destruct o; simpl; by rewrite ?Hf. Qed.

(** Literal text without braces is copied. *)
Lemma scan_literal s : brace_free s = true → ∀ nb args rest,
  scan Text nb args (String.append s rest)
  = outcome_map (String.append s) (scan Text nb args rest).
Proof.
  induction s as [|c s IH]; simpl; intros Hs nb args rest.
  - by rewrite outcome_map_id.
  - apply andb_prop in Hs as [[Ho Hc]%andb_prop Hs].
    apply negb_true_iff in Ho, Hc. rewrite Ho, Hc, IH by done.
    by rewrite outcome_map_compose.
Qed.

(** Under automatic numbering, formatting is positional substitution
    into the arguments that are left. *)
Lemma scan_segments segs : all_plain segs = true → ∀ nb i args,
  auto_index nb = Return i →
  scan Text nb args (render segs)
  = match fill segs (drop i args) with
    | Some r => Return r
    | None => Raise IndexError
    end.
Proof.
  induction segs as [|[s|] segs IH]; simpl; intros Hp nb i args Hnb.
  - done.
  - apply andb_prop in Hp as [Hs Hp].
    rewrite scan_literal, (IH Hp nb i) by done.
    by destruct (fill segs (drop i args)).
  - rewrite Hnb. destruct (args !! i) as [a|] eqn:Ha.
    + rewrite (drop_S _ _ _ Ha), (IH Hp (Auto (S i)) (S i)) by done.
      by destruct (fill segs (drop (S i) args)).
    + apply lookup_ge_None in Ha. by rewrite drop_ge.
Qed.

Lemma fill_enough segs : ∀ args,
  holes segs ≤ length args → is_Some (fill segs args).
Proof.
  induction segs as [|[s|] segs IH]; simpl; intros args Hn; [by eauto| |].
  - destruct (IH args Hn) as [r ->]. by eauto.
  - destruct args as [|a args]; simpl in *; [lia|].
    destruct (IH args) as [r ->]; [lia|]. by eauto.
Qed.

Lemma fill_short segs : ∀ args,
  length args < holes segs → fill segs args = None.
Proof.
  induction segs as [|[s|] segs IH]; simpl; intros args Hn; [lia| |].
  - by rewrite IH.
  - destruct args as [|a args]; simpl in *; [done|]. rewrite IH; [done|lia].
Qed.

(** Without markers there is nothing to fill. *)
Lemma fill_no_holes segs : ∀ args,
  holes segs = 0 → fill segs args = Some (render segs).
Proof.
  induction segs as [|[s|] segs IH]; simpl; intros args Hn; [done| |lia].
  by rewrite IH.
Qed.

Lemma str_format_fill segs args r :
  all_plain segs = true → fill segs args = Some r →
  str_format (render segs) args = Return r.
Proof.
  intros Hp Hf. unfold str_format.
  rewrite (scan_segments segs Hp Unset 0), drop_0 by done. by rewrite Hf.
Qed.

Lemma str_format_short segs args :
  all_plain segs = true → length args < holes segs →
  str_format (render segs) args = Raise IndexError.
Proof.
  intros Hp Hn. unfold str_format.
  rewrite (scan_segments segs Hp Unset 0), drop_0 by done.
  by rewrite fill_short.
Qed.

End FormatFacts.

(* ===================================================================== *)
(** * The random generator of [tape_lib] *)
(* ===================================================================== *)

Lemma tape_in_range : @randbelow_in_range tape_lib.
Proof.
  intros n [|x g] Hn; simpl; [done|]. apply Nat.mod_upper_bound. lia.
Qed.

(* ===================================================================== *)
(** * The connector's methods, step by step *)
(* ===================================================================== *)

Section methods.
Context `{PyLib}.
Implicit Types (w : world) (message : string) (items : list PatternRule).

(** ** [_process] *)

Lemma _process_unfold message w :
  _process message w = _process_loop (intent_list (self w)) message w.
Proof. done. Qed.

Lemma _process_loop_cons item items message w :
  _process_loop (item :: items) message w
  = match re_match (pattern item) message with
    | Return (Some mt) => (Return (Some (intent item), Some (groups mt)), w)
    | Return None => _process_loop items message w
    | Raise e => (Raise e, w)
    | Unmodelled => (Unmodelled, w)
    end.
Proof.
  simpl. unfold mbind, M_bind, lift. simpl.
  by destruct (re_match (pattern item) message) as [[mt|]|e|].
Qed.

(** The loop passes over the rules that do not match. *)
Lemma _process_loop_skip before items message w :
  Forall (no_match message) before →
  _process_loop (before ++ items) message w = _process_loop items message w.
Proof.
  induction 1 as [|item before Hno _ IH]; [done|].
  rewrite <- app_comm_cons, _process_loop_cons, Hno. exact IH.
Qed.

Lemma _process_loop_first items message item mt w :
  first_match items message item mt →
  _process_loop items message w
  = (Return (Some (intent item), Some (groups mt)), w).
Proof.
  intros (before & after & -> & Hno & Hm).
  by rewrite _process_loop_skip, _process_loop_cons, Hm.
Qed.

Lemma _process_loop_exhausted items message w :
  Forall (no_match message) items →
  _process_loop items message w = (Return (None, None), w).
Proof.
  intros Hno. rewrite <- (app_nil_r items).
  by rewrite _process_loop_skip.
Qed.

(** The loop leaves the world as it found it ... *)
Lemma _process_loop_frame items message w :
  (_process_loop items message w).2 = w.
Proof.
  induction items as [|item items IH]; [done|].
  rewrite _process_loop_cons.
  by destruct (re_match (pattern item) message) as [[mt|]|e|].
Qed.

(** ... and never looks at it. *)
Lemma _process_loop_blind items message w1 w2 :
  (_process_loop items message w1).1 = (_process_loop items message w2).1.
Proof.
  induction items as [|item items IH]; [done|].
  rewrite !_process_loop_cons.
  by destruct (re_match (pattern item) message) as [[mt|]|e|].
Qed.

(** ** [_postprocess] *)

Lemma choice_self messages w : self (choice messages w).2 = self w.
Proof.
  unfold choice. destruct messages as [|t l]; [done|].
  destruct (randbelow _ _) as [i g]. by destruct (_ !! i).
Qed.

Lemma choice_drawn messages template w :
  drawn messages w = Some template →
  choice messages w = (Return template, after_draw (length messages) w).
Proof.
  unfold drawn, after_draw, choice. destruct messages as [|t l]; [done|].
  destruct (randbelow _ _) as [i g]. simpl. by intros ->.
Qed.

Lemma choice_empty w : choice [] w = (Raise IndexError, w).
Proof. done. Qed.

(** With a generator that stays in range, a template is always drawn. *)
Lemma drawn_in_range messages w :
  randbelow_in_range → messages ≠ [] → is_Some (drawn messages w).
Proof.
  intros Hr Hne. apply lookup_lt_is_Some, Hr.
  destruct messages; simpl; [done | lia].
Qed.

Lemma _postprocess_fallback t w :
  entry_truthy (dict_get (response_dict (self w)) t.1) = None →
  _postprocess t w = (Return fallback, w).
Proof.
  destruct t as [i ents]. unfold _postprocess, mbind, M_bind. simpl.
  by intros ->.
Qed.

(** The branch taken when the lookup yields a non-empty entry. *)
Lemma _postprocess_found i ents e w :
  response_dict (self w) !! i = Some e → e ≠ ∅ →
  _postprocess (Some i, ents) w
  = match e !! "messages" with
    | None => (Raise KeyError, w)
    | Some messages =>
        match choice messages w with
        | (Return response, w') =>
            match entities_truthy ents with
            | Some args => (Format.str_format response args, w')
            | None => (Return response, w')
            end
        | (Raise x, w') => (Raise x, w')
        | (Unmodelled, w') => (Unmodelled, w')
        end
    end.
Proof.
  intros He Hne. unfold _postprocess, mbind, M_bind. simpl. rewrite He.
  simpl. rewrite decide_False by done. unfold getitem_messages.
  destruct (e !! "messages") as [messages|]; [|done]. simpl.
  destruct (choice messages w) as [[response|x|] w']; try done.
  by destruct (entities_truthy ents).
Qed.

Lemma _postprocess_self t w : self (_postprocess t w).2 = self w.
Proof.
  destruct t as [[i|] ents]; [|by rewrite _postprocess_fallback].
  destruct (entry_truthy (dict_get (response_dict (self w)) (Some i)))
    as [e|] eqn:He; [|by rewrite _postprocess_fallback].
  simpl in He. destruct (response_dict (self w) !! i) as [e'|] eqn:Hi;
    [|done]. simpl in He. case_decide; simplify_eq.
  rewrite (_postprocess_found _ _ _ _ Hi) by done.
  destruct (e !! "messages") as [messages|]; [|done].
  pose proof (choice_self messages w) as Hc.
  destruct (choice messages w) as [[response|x|] w']; try done.
  by destruct (entities_truthy ents).
Qed.

(** ** [respond] *)

Lemma respond_unfold message w :
  respond message w
  = match _process_loop (intent_list (self w)) message w with
    | (Return t, w') => _postprocess t w'
    | (Raise x, w') => (Raise x, w')
    | (Unmodelled, w') => (Unmodelled, w')
    end.
Proof. done. Qed.

Lemma respond_first message item mt w :
  first_match (intent_list (self w)) message item mt →
  respond message w = _postprocess (Some (intent item), Some (groups mt)) w.
Proof.
  intros Hf. by rewrite respond_unfold, (_process_loop_first _ _ _ _ _ Hf).
Qed.

Lemma respond_exhausted message w :
  Forall (no_match message) (intent_list (self w)) →
  respond message w = _postprocess (None, None) w.
Proof.
  intros Hno. by rewrite respond_unfold, _process_loop_exhausted.
Qed.

Lemma respond_self message w : self (respond message w).2 = self w.
Proof.
  rewrite respond_unfold.
  pose proof (_process_loop_frame (intent_list (self w)) message w) as Hf.
  destruct (_process_loop _ _ _) as [[t|x|] w']; simpl in Hf; subst w';
    [|done..].
  apply _postprocess_self.
Qed.

(** An entry with a ["messages"] member is not the empty dictionary. *)
Lemma entry_nonempty (e : entry) messages :
  e !! "messages" = Some messages → e ≠ ∅.
Proof. intros He ->. by rewrite lookup_empty in He. Qed.

(** What [respond] does once a rule has matched and its intent has an
    entry with templates: draw one, and fill it unless there are no
    captures. *)
Lemma respond_found message item mt e messages template w :
  first_match (intent_list (self w)) message item mt →
  response_dict (self w) !! intent item = Some e →
  e !! "messages" = Some messages →
  drawn messages w = Some template →
  respond message w
  = (match groups mt with
     | [] => Return template
     | _ :: _ => Format.str_format template (groups mt)
     end, after_draw (length messages) w).
Proof.
  intros Hf Hi He Hd. rewrite (respond_first _ _ _ _ Hf).
  rewrite (_postprocess_found _ _ _ _ Hi (entry_nonempty _ _ He)), He.
  rewrite (choice_drawn _ _ _ Hd). simpl. by destruct (groups mt).
Qed.

(** The converse reading of the loop: whatever it returns, it got from
    the first rule that matched, or from running out of rules. *)
Lemma _process_loop_inv items message w t w' :
  _process_loop items message w = (Return t, w') →
  w' = w
  ∧ ((t = (None, None) ∧ Forall (no_match message) items)
     ∨ ∃ item mt, first_match items message item mt
                  ∧ t = (Some (intent item), Some (groups mt))).
Proof.
  revert t w'. induction items as [|item items IH]; intros t w'.
  - intros [= <- <-]. split; [done|]. left. by split.
  - rewrite _process_loop_cons.
    destruct (re_match (pattern item) message) as [[mt|]|x|] eqn:Hm;
      try done.
    + intros [= <- <-]. split; [done|]. right. exists item, mt.
      split; [|done]. exists [], items. by repeat split.
    + intros [-> Hcase]%IH. split; [done|].
      destruct Hcase as [[-> Hno]|(it & mt & Hf & ->)].
      * left. split; [done|]. by constructor.
      * right. exists it, mt. split; [|done].
        destruct Hf as (before & after & -> & Hno & Hmt).
        exists (item :: before), after. repeat split; [|done].
        by constructor.
Qed.

End methods.

(* ===================================================================== *)
(** * Properties of the dispatcher *)
(* ===================================================================== *)

(** C1.  [_process] tries the rules in list order.  If [item] is the first
    rule whose pattern matches, it returns [item]'s intent with the groups
    of that match; if no rule matches it returns [(None, None)]; and it
    returns nothing that does not arise in one of these two ways.  For the
    patterns of [PyRe], a match is a prefix of the input that belongs to
    the pattern's language (so it starts at position 0), every such prefix
    makes the pattern match (so nothing has to follow it), the groups are
    as many as the pattern's capturing groups (none when it has none), and
    letters are compared exactly unless the pattern opens with [(?i)]. *)
Theorem classify_first_match `{PyLib} (w : world) (message : string) :
  (∀ item mt,
     first_match (intent_list (self w)) message item mt →
     _process message w = (Return (Some (intent item), Some (groups mt)), w))
  ∧ (Forall (no_match message) (intent_list (self w)) →
     _process message w = (Return (None, None), w))
  ∧ (∀ t w',
       _process message w = (Return t, w') →
       (t = (None, None) ∧ Forall (no_match message) (intent_list (self w)))
       ∨ ∃ item mt, first_match (intent_list (self w)) message item mt
                    ∧ t = (Some (intent item), Some (groups mt)))
  ∧ (∀ p s mt,
       PyRe.re_match p s = Return (Some mt) →
       ∃ c pre post,
         PyRe.parse p = Some c
         ∧ s = String.append pre post
         ∧ PyRe.lang (PyRe.ignorecase c) (PyRe.body c) pre
         ∧ m_end mt = String.length pre
         ∧ length (groups mt) = PyRe.count_caps (PyRe.body c))
  ∧ (∀ p c pre post,
       PyRe.parse p = Some c →
       PyRe.lang (PyRe.ignorecase c) (PyRe.body c) pre →
       ∃ mt, PyRe.re_match p (String.append pre post) = Return (Some mt))
  ∧ (∀ p c,
       PyRe.parse p = Some c → PyRe.ignorecase c = true →
       ∃ rest, p = String.append "(?i)" rest)
  ∧ (∀ x c, PyRe.accepts false (PyRe.Chr x) c = true ↔ c = x).
Proof.
  repeat split.
  - intros item mt Hf. rewrite _process_unfold. by apply _process_loop_first.
  - intros Hno. rewrite _process_unfold. by apply _process_loop_exhausted.
  - intros t w'. rewrite _process_unfold. intros Hp.
    by apply _process_loop_inv in Hp as [_ ?].
  - apply PyReFacts.re_match_anchored.
  - apply PyReFacts.re_match_prefix.
  - intros p c Hp Hic.
    destruct (PyReFacts.parse_ignorecase p c Hp Hic) as [rest Hs].
    exists rest. by apply PyReFacts.strip_Some.
  - by intros ->%PyReFacts.accepts_case_sensitive.
  - intros ->. by apply PyReFacts.accepts_case_sensitive.
Qed.

Lemma classify_first_match_witness :
  @_process tape_lib "Hello, Alain" (tape_world eliza [])
  = (Return (Some "hello", Some [Some "Hello"]), tape_world eliza [])
  ∧ @_process tape_lib "Who are you" (tape_world eliza [])
    = (Return (None, None), tape_world eliza [])
  ∧ (∃ item mt,
       @first_match tape_lib (intent_list eliza) "bye" item mt
       ∧ (Some "bye", Some []) = (Some (intent item), Some (groups mt)))
  ∧ (∃ c pre post,
       PyRe.parse "I need (.*)" = Some c
       ∧ "I need coffee" = String.append pre post
       ∧ PyRe.lang (PyRe.ignorecase c) (PyRe.body c) pre
       ∧ 13 = String.length pre
       ∧ 1 = PyRe.count_caps (PyRe.body c))
  ∧ (∃ mt, PyRe.re_match "b" (String.append "b" "ye") = Return (Some mt))
  ∧ (∃ rest, "(?i)hi" = String.append "(?i)" rest).
Proof.
  pose proof (@classify_first_match tape_lib (tape_world eliza [])
                "Hello, Alain") as (Hfirst & _ & _ & Hanch & Hpre & Hic & _).
  split; [|split; [|split; [|split; [|split]]]].
  - apply (Hfirst {| intent := "hello"; pattern := "(?i)(hi|hello)" |}
                  {| m_end := 5; groups := [Some "Hello"] |}).
    exists [ {| intent := "need"; pattern := "I need (.*)" |} ],
           [ {| intent := "bye"; pattern := "bye" |} ].
    split; [reflexivity|]. split; [|vm_compute; reflexivity].
    repeat constructor.
  - apply (proj1 (proj2 (@classify_first_match tape_lib (tape_world eliza [])
                           "Who are you"))).
    repeat constructor.
  - destruct (proj1 (proj2 (proj2 (@classify_first_match tape_lib
                                     (tape_world eliza []) "bye")))
                (Some "bye", Some []) (tape_world eliza []))
      as [[Hnone _]|Hsome]; [vm_compute; reflexivity | | exact Hsome].
    discriminate Hnone.
  - apply (Hanch "I need (.*)" "I need coffee"
                 {| m_end := 13; groups := [Some "coffee"] |}).
    vm_compute. reflexivity.
  - apply (Hpre "b" {| PyRe.ignorecase := false; PyRe.ngroups := 0;
                       PyRe.body := PyRe.Cat (PyRe.Single (PyRe.Chr "b")
                                                 PyRe.One) PyRe.Eps |}
                "b" "ye").
    + vm_compute. reflexivity.
    + exists "b", "". simpl. repeat split. 
  - apply (Hic "(?i)hi"
               {| PyRe.ignorecase := true; PyRe.ngroups := 0;
                  PyRe.body :=
                    PyRe.Cat (PyRe.Single (PyRe.Chr "h") PyRe.One)
                      (PyRe.Cat (PyRe.Single (PyRe.Chr "i") PyRe.One)
                         PyRe.Eps) |}).
    + vm_compute. reflexivity.
    + reflexivity.
Defined.

(** C2.  When no rule matches, and when the first matching rule's intent
    has no entry in [response_dict], [respond] returns the fallback string
    -- a returned value, not an exception -- and leaves the world alone. *)
Theorem respond_fallback `{PyLib} (w : world) (message : string) :
  (Forall (no_match message) (intent_list (self w)) →
   respond message w = (Return fallback, w))
  ∧ (∀ item mt,
       first_match (intent_list (self w)) message item mt →
       response_dict (self w) !! intent item = None →
       respond message w = (Return fallback, w))
  ∧ fallback = "Could not figure out a proper response. Please try again.".
Proof.
  repeat split.
  - intros Hno. rewrite respond_exhausted by done.
    by apply _postprocess_fallback.
  - intros item mt Hf Hi. rewrite (respond_first _ _ _ _ Hf).
    apply _postprocess_fallback. simpl. by rewrite Hi.
Qed.

Lemma respond_fallback_witness :
  @respond tape_lib "Who are you" (tape_world eliza [3])
  = (Return fallback, tape_world eliza [3])
  ∧ @respond tape_lib "I need coffee" (tape_world shadowed [3])
    = (Return fallback, tape_world shadowed [3]).
Proof.
  split.
  - apply (proj1 (@respond_fallback tape_lib (tape_world eliza [3])
                    "Who are you")).
    repeat constructor.
  - apply (proj1 (proj2 (@respond_fallback tape_lib (tape_world shadowed [3])
                           "I need coffee"))
             {| intent := "i"; pattern := "I" |}
             {| m_end := 1; groups := [] |}).
    + exists [], [ {| intent := "need"; pattern := "I need (.*)" |} ].
      split; [reflexivity|]. split; [constructor | vm_compute; reflexivity].
    + vm_compute. reflexivity.
Defined.

(** C4.  First match wins.  If the rules before [item] do not match, [item]
    matches and its intent has no entry, [respond] returns the fallback
    string whatever the rules after [item] are -- also when one of them
    matches the same input and its intent has an entry. *)
Theorem first_match_wins `{PyLib} (w : world) (message : string)
    (before after : list PatternRule) (item : PatternRule) (mt : Match) :
  intent_list (self w) = before ++ item :: after →
  Forall (no_match message) before →
  re_match (pattern item) message = Return (Some mt) →
  response_dict (self w) !! intent item = None →
  respond message w = (Return fallback, w).
Proof.
  intros Hl Hno Hm Hi.
  rewrite (respond_first message item mt); [|by exists before, after].
  apply _postprocess_fallback. simpl. by rewrite Hi.
Qed.

Lemma first_match_wins_witness :
  (* the second rule matches too, and its intent has an entry *)
  PyRe.re_match "I need (.*)" "I need coffee"
  = Return (Some {| m_end := 13; groups := [Some "coffee"] |})
  ∧ is_Some (response_dict shadowed !! "need")
  ∧ @respond tape_lib "I need coffee" (tape_world shadowed [])
    = (Return fallback, tape_world shadowed []).
Proof.
  split; [vm_compute; reflexivity|]. split; [vm_compute; eauto|].
  apply (@first_match_wins tape_lib (tape_world shadowed []) "I need coffee"
           [] [ {| intent := "need"; pattern := "I need (.*)" |} ]
           {| intent := "i"; pattern := "I" |} {| m_end := 1; groups := [] |}).
  - reflexivity.
  - constructor.
  - vm_compute. reflexivity.
  - vm_compute. reflexivity.
Defined.

(** C8.  Neither method changes the connector: after [_process] the whole
    world is as before, after [respond] [intent_list] and [response_dict]
    are as before (only the generator may have advanced).  The result of
    [_process] depends on the connector and the message only: not on the
    generator, and not on the calls made earlier. *)
Theorem connector_is_read_only `{PyLib} (w : world) (message : string) :
  (_process message w).2 = w
  ∧ self (respond message w).2 = self w
  ∧ (∀ w', self w' = self w →
           (_process message w').1 = (_process message w).1)
  ∧ (∀ earlier,
       (_process message (respond earlier w).2).1 = (_process message w).1).
Proof.
  assert (Hblind : ∀ w', self w' = self w →
                         (_process message w').1 = (_process message w).1).
  { intros w' Hs. rewrite !_process_unfold, Hs. apply _process_loop_blind. }
  repeat split.
  - rewrite _process_unfold. apply _process_loop_frame.
  - apply respond_self.
  - exact Hblind.
  - intros earlier. apply Hblind, respond_self.
Qed.

Lemma connector_is_read_only_witness :
  (@_process tape_lib "bye" (tape_world eliza [7; 8])).1
  = (@_process tape_lib "bye" (tape_world eliza [])).1.
Proof.
  apply (proj1 (proj2 (proj2 (@connector_is_read_only tape_lib
                                (tape_world eliza []) "bye")))
           (tape_world eliza [7; 8])).
  reflexivity.
Defined.

(** C3, as amended.  Let a rule match with at least one capture and let the
    template drawn be literal text around [{}] markers, more markers than
    captures.  Then [respond] raises [IndexError], the failure of
    [str.format]; nothing is truncated or padded.  With no capture at all
    the substitution is skipped, and the same template comes back as it is
    written. *)
Theorem respond_template_mismatch `{PyLib} (w : world) (message : string)
    (item : PatternRule) (mt : Match) (e : entry) (messages : list string)
    (segs : list Format.segment) :
  first_match (intent_list (self w)) message item mt →
  response_dict (self w) !! intent item = Some e →
  e !! "messages" = Some messages →
  drawn messages w = Some (Format.render segs) →
  Format.all_plain segs = true →
  length (groups mt) < Format.holes segs →
  (groups mt ≠ [] →
   respond message w = (Raise IndexError, after_draw (length messages) w))
  ∧ (groups mt = [] →
     respond message w
     = (Return (Format.render segs), after_draw (length messages) w)).
Proof.
  intros Hf Hi He Hd Hp Hn.
  rewrite (respond_found _ _ _ _ _ _ _ Hf Hi He Hd).
  split; intros Hg.
  - rewrite FormatFacts.str_format_short by done.
    by destruct (groups mt).
  - by rewrite Hg.
Qed.

Lemma respond_template_mismatch_witness :
  @respond tape_lib "d" (tape_world hollow [5])
  = (Raise IndexError, tape_world hollow []).
Proof.
  apply (proj1 (@respond_template_mismatch tape_lib (tape_world hollow [5]) "d"
                  {| intent := "two"; pattern := "(d)" |}
                  {| m_end := 1; groups := [Some "d"] |}
                  {[ "messages" := ["{} and {}"] ]} ["{} and {}"]
                  [Format.Hole; Format.Lit " and "; Format.Hole]
                  ltac:(exists [ {| intent := "empty"; pattern := "a" |};
                                 {| intent := "void"; pattern := "b" |};
                                 {| intent := "other"; pattern := "c" |} ], [];
                        split; [reflexivity|];
                        split; [repeat constructor | vm_compute; reflexivity])
                  ltac:(vm_compute; reflexivity)
                  ltac:(vm_compute; reflexivity)
                  ltac:(vm_compute; reflexivity)
                  ltac:(reflexivity)
                  ltac:(simpl; lia))).
  simpl. discriminate.
Defined.

(** A match without captures and a template with a marker: [respond]
    returns the template, so the statement fails as it stands. *)
Lemma mismatch_with_no_capture_passes : ¬ mismatch_always_fails.
Proof.
  intros Hall.
  destruct (Hall tape_lib (tape_world eliza []) "bye"
              {| intent := "bye"; pattern := "bye" |}
              {| m_end := 3; groups := [] |}
              {[ "messages" := ["Goodbye {}"] ]} ["Goodbye {}"]
              [Format.Lit "Goodbye "; Format.Hole]) as (x & w' & Hr).
  - exists [ {| intent := "need"; pattern := "I need (.*)" |};
             {| intent := "hello"; pattern := "(?i)(hi|hello)" |} ], [].
    split; [reflexivity|].
    split; [repeat constructor | vm_compute; reflexivity].
  - vm_compute. reflexivity.
  - vm_compute. reflexivity.
  - vm_compute. reflexivity.
  - reflexivity.
  - simpl. lia.
  - vm_compute in Hr. discriminate Hr.
Qed.

(** C5.  When the first matching rule's intent has an entry with a
    non-empty template list, [respond] draws one template of that list, at
    the index the generator gives, and its result is that of substituting
    the captures into it ([str.format]; the template itself when there is
    no capture).  If the template is literal text around [{}] markers, not
    more markers than captures, [respond] returns the text with the i-th
    capture at the i-th marker.  The pattern of the [need] rule of [eliza]
    captures [coffee] from [I need coffee], and the template
    [Why do you need {}?] becomes [Why do you need coffee?]. *)
Theorem respond_substitutes :
  (∀ (L : PyLib) (w : world) (message : string) (item : PatternRule)
     (mt : Match) (e : entry) (messages : list string),
     randbelow_in_range →
     first_match (intent_list (self w)) message item mt →
     response_dict (self w) !! intent item = Some e →
     e !! "messages" = Some messages →
     messages ≠ [] →
     ∃ template,
       drawn messages w = Some template
       ∧ template ∈ messages
       ∧ respond message w
         = (match groups mt with
            | [] => Return template
            | _ :: _ => Format.str_format template (groups mt)
            end, after_draw (length messages) w))
  ∧ (∀ (L : PyLib) (w : world) (message : string) (item : PatternRule)
       (mt : Match) (e : entry) (messages : list string)
       (segs : list Format.segment),
       first_match (intent_list (self w)) message item mt →
       response_dict (self w) !! intent item = Some e →
       e !! "messages" = Some messages →
       drawn messages w = Some (Format.render segs) →
       Format.all_plain segs = true →
       Format.holes segs ≤ length (groups mt) →
       ∃ r, Format.fill segs (groups mt) = Some r
            ∧ respond message w = (Return r, after_draw (length messages) w))
  ∧ PyRe.re_match "I need (.*)" "I need coffee"
    = Return (Some {| m_end := 13; groups := [Some "coffee"] |})
  ∧ Format.str_format "Why do you need {}?" [Some "coffee"]
    = Return "Why do you need coffee?"
  ∧ (∀ g, (@respond tape_lib "I need coffee" (tape_world eliza g)).1
          = Return "Why do you need coffee?").
Proof.
  assert (Hgen : ∀ (L : PyLib) (w : world) (message : string)
     (item : PatternRule) (mt : Match) (e : entry) (messages : list string),
     randbelow_in_range →
     first_match (intent_list (self w)) message item mt →
     response_dict (self w) !! intent item = Some e →
     e !! "messages" = Some messages →
     messages ≠ [] →
     ∃ template,
       drawn messages w = Some template
       ∧ template ∈ messages
       ∧ respond message w
         = (match groups mt with
            | [] => Return template
            | _ :: _ => Format.str_format template (groups mt)
            end, after_draw (length messages) w)).
  { intros L w message item mt e messages Hr Hf Hi He Hne.
    destruct (drawn_in_range messages w Hr Hne) as [template Hd].
    exists template. split; [done|]. split.
    - eapply list_elem_of_lookup_2, Hd.
    - by apply (respond_found message item mt e messages template). }
  split; [exact Hgen|]. split; [|split; [|split]].
  - intros L w message item mt e messages segs Hf Hi He Hd Hp Hn.
    rewrite (respond_found _ _ _ _ _ _ _ Hf Hi He Hd).
    destruct (groups mt) as [|a args] eqn:Hg.
    + exists (Format.render segs). simpl in Hn.
      rewrite FormatFacts.fill_no_holes by lia. done.
    + destruct (FormatFacts.fill_enough segs (a :: args) Hn) as [r Hr].
      exists r. split; [done|].
      by rewrite (FormatFacts.str_format_fill _ _ _ Hp Hr).
  - vm_compute. reflexivity.
  - vm_compute. reflexivity.
  - intros g.
    destruct (Hgen tape_lib (tape_world eliza g) "I need coffee"
                {| intent := "need"; pattern := "I need (.*)" |}
                {| m_end := 13; groups := [Some "coffee"] |}
                {[ "messages" := ["Why do you need {}?"] ]}
                ["Why do you need {}?"] tape_in_range)
      as (template & _ & Hin & ->); try (vm_compute; reflexivity); try done.
    + exists [], [ {| intent := "hello"; pattern := "(?i)(hi|hello)" |};
                   {| intent := "bye"; pattern := "bye" |} ].
      split; [reflexivity|].
      split; [constructor | vm_compute; reflexivity].
    + apply list_elem_of_singleton in Hin as ->. vm_compute. reflexivity.
Qed.

Lemma respond_substitutes_witness :
  (∃ template,
     template ∈ ["Hello, how are you feeling today?"; "Hi {}"]
     ∧ @respond tape_lib "hi there" (tape_world eliza [3; 4])
       = (Format.str_format template [Some "hi"], tape_world eliza [4]))
  ∧ @respond tape_lib "hi there" (tape_world eliza [3; 4])
    = (Return "Hi hi", tape_world eliza [4]).
Proof.
  pose (item := {| intent := "hello"; pattern := "(?i)(hi|hello)" |}).
  pose (mt := {| m_end := 2; groups := [Some "hi"] |}).
  pose (messages := ["Hello, how are you feeling today?"; "Hi {}"]).
  pose (e := ({[ "messages" := messages ]} : entry)).
  assert (Hf : @first_match tape_lib (intent_list eliza) "hi there" item mt).
  { exists [ {| intent := "need"; pattern := "I need (.*)" |} ],
           [ {| intent := "bye"; pattern := "bye" |} ].
    split; [reflexivity|].
    split; [repeat constructor | vm_compute; reflexivity]. }
  assert (Hi : response_dict eliza !! intent item = Some e)
    by (vm_compute; reflexivity).
  assert (He : e !! "messages" = Some messages) by (vm_compute; reflexivity).
  split.
  - destruct (proj1 respond_substitutes tape_lib (tape_world eliza [3; 4])
                "hi there" item mt e messages tape_in_range Hf Hi He
                ltac:(discriminate))
      as (template & _ & Hin & Hr).
    exists template. split; [exact Hin | exact Hr].
  - destruct (proj1 (proj2 respond_substitutes) tape_lib
                (tape_world eliza [3; 4]) "hi there" item mt e messages
                [Format.Lit "Hi "; Format.Hole] Hf Hi He
                ltac:(vm_compute; reflexivity) ltac:(reflexivity)
                ltac:(simpl; lia))
      as (r & Hfill & Hr).
    vm_compute in Hfill. injection Hfill as <-. exact Hr.
Defined.

(** C6.  Let the first matching rule's intent have an entry whose template
    list is a single template.  Then [respond] gives the same result in any
    two worlds that hold the same connector, whatever the states of their
    generators; in particular a second call gives what the first one
    gave. *)
Theorem respond_single_template `{PyLib} (w1 w2 : world) (message : string)
    (item : PatternRule) (mt : Match) (e : entry) (template : string) :
  randbelow_in_range →
  self w1 = self w2 →
  first_match (intent_list (self w1)) message item mt →
  response_dict (self w1) !! intent item = Some e →
  e !! "messages" = Some [template] →
  (respond message w1).1 = (respond message w2).1
  ∧ (respond message (respond message w1).2).1 = (respond message w1).1.
Proof.
  intros Hr Hs Hf Hi He.
  assert (Hd : ∀ w, drawn [template] w = Some template).
  { intros w. unfold drawn. specialize (Hr 1 (entropy w)). simpl in *.
    destruct (randbelow 1 (entropy w)).1; [done | lia]. }
  assert (Hany : ∀ w, self w = self w1 →
            (respond message w).1
            = match groups mt with
              | [] => Return template
              | _ :: _ => Format.str_format template (groups mt)
              end).
  { intros w Hw.
    rewrite (respond_found message item mt e [template] template);
      rewrite ?Hw; done. }
  split.
  - by rewrite !Hany.
  - rewrite !Hany; [done..|]. apply respond_self.
Qed.

Lemma respond_single_template_witness :
  (@respond tape_lib "I need coffee" (tape_world eliza [11; 5])).1
  = (@respond tape_lib "I need coffee" (tape_world eliza [])).1.
Proof.
  apply (proj1 (@respond_single_template tape_lib
                  (tape_world eliza [11; 5]) (tape_world eliza [])
                  "I need coffee"
                  {| intent := "need"; pattern := "I need (.*)" |}
                  {| m_end := 13; groups := [Some "coffee"] |}
                  {[ "messages" := ["Why do you need {}?"] ]}
                  "Why do you need {}?"
                  tape_in_range
                  ltac:(reflexivity)
                  ltac:(exists [],
                          [ {| intent := "hello"; pattern := "(?i)(hi|hello)" |};
                            {| intent := "bye"; pattern := "bye" |} ];
                        split; [reflexivity|];
                        split; [constructor | vm_compute; reflexivity])
                  ltac:(vm_compute; reflexivity)
                  ltac:(vm_compute; reflexivity))).
Defined.

(** The group around the alternation is a capturing group, and it took
    part in the match. *)
Lemma hello_has_a_capture : ¬ hello_without_captures.
Proof.
  intros (mt & Hm & Hg). vm_compute in Hm.
  injection Hm as <-. discriminate Hg.
Qed.

(** C7, as amended.  The alternation of [hi] and [hello] in a group, made
    case-insensitive by the inline flag, matches [Hello, Alain] from its
    start up to position 5, and the match carries one capture, [Hello].
    [_process] passes it on under the rule's intent.  Without the flag the
    same pattern does not match this input. *)
Theorem hello_carries_one_capture :
  PyRe.re_match "(?i)(hi|hello)" "Hello, Alain"
  = Return (Some {| m_end := 5; groups := [Some "Hello"] |})
  ∧ (∀ (label : string) (d : gmap string entry) (g : list nat),
       let w := tape_world
                  {| intent_list :=
                       [ {| intent := label; pattern := "(?i)(hi|hello)" |} ];
                     response_dict := d |} g in
       @_process tape_lib "Hello, Alain" w
       = (Return (Some label, Some [Some "Hello"]), w))
  ∧ PyRe.re_match "(hi|hello)" "Hello, Alain" = Return None.
Proof.
  split; [vm_compute; reflexivity|]. split; [|vm_compute; reflexivity].
  intros label d g w. subst w.
  rewrite _process_unfold. simpl intent_list.
  rewrite _process_loop_cons. simpl pattern.
  change (@re_match tape_lib) with PyRe.re_match.
  replace (PyRe.re_match "(?i)(hi|hello)" "Hello, Alain")
    with (Return (Some {| m_end := 5; groups := [Some "Hello"] |}))
    by (vm_compute; reflexivity).
  reflexivity.
Qed.

(** C9.  Let the first matching rule's intent have an entry [e].  If [e]
    holds an empty ["messages"] list, [respond] raises [IndexError] -- the
    choice from an empty sequence -- and does not fall back.  The fallback
    is for the empty entry; an entry without ["messages"] that is not
    empty raises [KeyError]. *)
Theorem respond_hollow_entry `{PyLib} (w : world) (message : string)
    (item : PatternRule) (mt : Match) (e : entry) :
  first_match (intent_list (self w)) message item mt →
  response_dict (self w) !! intent item = Some e →
  (e !! "messages" = Some [] → respond message w = (Raise IndexError, w))
  ∧ (e = ∅ → respond message w = (Return fallback, w))
  ∧ (e ≠ ∅ → e !! "messages" = None →
     respond message w = (Raise KeyError, w)).
Proof.
  intros Hf Hi. rewrite (respond_first _ _ _ _ Hf). repeat split.
  - intros He.
    rewrite (_postprocess_found _ _ _ _ Hi (entry_nonempty _ _ He)), He.
    by rewrite choice_empty.
  - intros ->. apply _postprocess_fallback. simpl. rewrite Hi. simpl.
    by rewrite decide_True.
  - intros Hne He. by rewrite (_postprocess_found _ _ _ _ Hi Hne), He.
Qed.

Lemma respond_hollow_entry_witness :
  @respond tape_lib "a" (tape_world hollow [2])
  = (Raise IndexError, tape_world hollow [2])
  ∧ @respond tape_lib "b" (tape_world hollow [2])
    = (Return fallback, tape_world hollow [2])
  ∧ @respond tape_lib "c" (tape_world hollow [2])
    = (Raise KeyError, tape_world hollow [2]).
Proof.
  split; [|split].
  - apply (proj1 (@respond_hollow_entry tape_lib (tape_world hollow [2]) "a"
                    {| intent := "empty"; pattern := "a" |}
                    {| m_end := 1; groups := [] |}
                    {[ "messages" := [] ]}
                    ltac:(exists [], (tail (intent_list hollow));
                          split; [reflexivity|];
                          split; [constructor | vm_compute; reflexivity])
                    ltac:(vm_compute; reflexivity))).
    vm_compute. reflexivity.
  - apply (proj1 (proj2 (@respond_hollow_entry tape_lib
                           (tape_world hollow [2]) "b"
                    {| intent := "void"; pattern := "b" |}
                    {| m_end := 1; groups := [] |}
                    ∅
                    ltac:(exists (take 1 (intent_list hollow)),
                                 (drop 2 (intent_list hollow));
                          split; [reflexivity|];
                          split; [repeat constructor | vm_compute; reflexivity])
                    ltac:(vm_compute; reflexivity)))).
    reflexivity.
  - apply (proj2 (proj2 (@respond_hollow_entry tape_lib
                           (tape_world hollow [2]) "c"
                    {| intent := "other"; pattern := "c" |}
                    {| m_end := 1; groups := [] |}
                    {[ "texts" := ["x"] ]}
                    ltac:(exists (take 2 (intent_list hollow)),
                                 (drop 3 (intent_list hollow));
                          split; [reflexivity|];
                          split; [repeat constructor | vm_compute; reflexivity])
                    ltac:(vm_compute; reflexivity)))).
    + intros Hx. apply (f_equal (λ m : entry, m !! "texts")) in Hx.
      vm_compute in Hx. discriminate Hx.
    + vm_compute. reflexivity.
Defined.

(** C10.  When the match carries no capture, [respond] returns the template
    it drew exactly as written -- no substitution takes place, so markers
    in it stay, and nothing is raised. *)
Theorem respond_without_captures `{PyLib} (w : world) (message : string)
    (item : PatternRule) (mt : Match) (e : entry) (messages : list string)
    (template : string) :
  first_match (intent_list (self w)) message item mt →
  groups mt = [] →
  response_dict (self w) !! intent item = Some e →
  e !! "messages" = Some messages →
  drawn messages w = Some template →
  respond message w = (Return template, after_draw (length messages) w).
Proof.
  intros Hf Hg Hi He Hd.
  by rewrite (respond_found _ _ _ _ _ _ _ Hf Hi He Hd), Hg.
Qed.

Lemma respond_without_captures_witness :
  PyRe.count_caps (PyRe.body (default (PyRe.Build_compiled false 0 PyRe.Eps)
                                (PyRe.parse "bye"))) = 0
  ∧ @respond tape_lib "bye" (tape_world eliza [9])
    = (Return "Goodbye {}", tape_world eliza []).
Proof.
  split; [reflexivity|].
  apply (@respond_without_captures tape_lib (tape_world eliza [9]) "bye"
           {| intent := "bye"; pattern := "bye" |}
           {| m_end := 3; groups := [] |}
           {[ "messages" := ["Goodbye {}"] ]} ["Goodbye {}"] "Goodbye {}").
  - exists (take 2 (intent_list eliza)), [].
    split; [reflexivity|].
    split; [repeat constructor | vm_compute; reflexivity].
  - reflexivity.
  - vm_compute. reflexivity.
  - vm_compute. reflexivity.
  - vm_compute. reflexivity.
Defined.

(* ===================================================================== *)
(** * [build_dataset]: dictionaries, counting and sorting *)
(* ===================================================================== *)

Module Word2VecFacts.
Import Word2Vec.
Import Word2VecAux.

Section pydict_facts.
Context {K V : Type} `{EqDecision K}.
Implicit Types (d : list (K * V)) (k : K) (v : V).

Lemma getitem_setitem d k v k' :
  getitem (setitem d k v) k' = if decide (k' = k) then Some v else getitem d k'.
Proof.
  induction d as [|[k0 v0] d IH]; simpl.
  - by destruct (decide (k' = k)).
  - destruct (decide (k = k0)) as [->|Hne]; simpl.
    + by destruct (decide (k' = k0)).
    + rewrite IH. destruct (decide (k' = k0)) as [->|]; [|done].
      by rewrite decide_False.
Qed.

Lemma getitem_None d k : getitem d k = None ↔ k ∉ d.*1.
Proof.
  induction d as [|[k0 v0] d IH]; simpl.
  - split; [intros _; apply not_elem_of_nil | done].
  - rewrite not_elem_of_cons. destruct (decide (k = k0)) as [->|Hne].
    + split; [done | by intros [? _]].
    + rewrite IH. tauto.
Qed.

Lemma getitem_Some_elem d k v : getitem d k = Some v → (k, v) ∈ d.
Proof.
  induction d as [|[k0 v0] d IH]; simpl; [done|].
  destruct (decide (k = k0)) as [->|].
  - intros [= ->]. apply list_elem_of_here.
  - intros ?. apply list_elem_of_further. auto.
Qed.

Lemma elem_getitem d k v : NoDup d.*1 → (k, v) ∈ d → getitem d k = Some v.
Proof.
  induction d as [|[k0 v0] d IH]; simpl; intros Hnd Hin.
  - by apply elem_of_nil in Hin.
  - apply NoDup_cons in Hnd as [Hk0 Hnd].
    apply elem_of_cons in Hin as [[= -> ->]|Hin].
    + by rewrite decide_True.
    + rewrite decide_False; [by apply IH|].
      intros ->. apply Hk0. apply list_elem_of_fmap. by exists (k0, v).
Qed.

(** Assigning to a key that is present keeps the keys as they are. *)
Lemma setitem_present d k v : k ∈ d.*1 → (setitem d k v).*1 = d.*1.
Proof.
  induction d as [|[k0 v0] d IH]; simpl; intros Hin.
  - by apply elem_of_nil in Hin.
  - destruct (decide (k = k0)) as [->|Hne]; simpl; [done|].
    apply elem_of_cons in Hin as [?|Hin]; [done|]. f_equal. by apply IH.
Qed.

(** Assigning to a fresh key appends it. *)
Lemma setitem_fresh d k v : k ∉ d.*1 → setitem d k v = d ++ [(k, v)].
Proof.
  induction d as [|[k0 v0] d IH]; simpl; [done|].
  rewrite not_elem_of_cons. intros [Hne Hk].
  rewrite decide_False by done. by rewrite IH.
Qed.

Lemma setitem_NoDup d k v : NoDup d.*1 → NoDup (setitem d k v).*1.
Proof.
  intros Hnd. destruct (decide (k ∈ d.*1)) as [Hin|Hin].
  - by rewrite setitem_present.
  - rewrite setitem_fresh, fmap_app by done. simpl.
    apply NoDup_app. split; [done|]. split; [|apply NoDup_singleton].
    intros x Hx ->%list_elem_of_singleton. done.
Qed.

Lemma setitem_values d k v x : x ∈ (setitem d k v).*2 → x = v ∨ x ∈ d.*2.
Proof.
  induction d as [|[k0 v0] d IH]; simpl.
  - intros ->%list_elem_of_singleton. by left.
  - destruct (decide (k = k0)); simpl; rewrite !elem_of_cons.
    + intros [->|?]; auto.
    + intros [->|[->|?]%IH]; auto.
Qed.

Lemma length_setitem d k v : length (setitem d k v) ≤ S (length d).
Proof.
  induction d as [|[k0 v0] d IH]; simpl; [done|].
  destruct (decide (k = k0)); simpl; lia.
Qed.
End pydict_facts.


(** ** [Counter] *)

Lemma occurrences_nonneg w words : (0 ≤ occurrences w words)%Z.
Proof. induction words as [|x words IH]; simpl; [done|]. case_decide; lia. Qed.

Lemma occurrences_absent w words : w ∉ words → occurrences w words = 0%Z.
Proof.
  induction words as [|x words IH]; simpl; [done|].
  rewrite not_elem_of_cons. intros [Hne Hw].
  rewrite decide_False by done. by rewrite IH.
Qed.

Lemma occurrences_present w words : w ∈ words → (1 ≤ occurrences w words)%Z.
Proof.
  induction words as [|x words IH]; simpl; [by intros ?%elem_of_nil|].
  pose proof (occurrences_nonneg w words).
  intros [->|Hin]%elem_of_cons; [rewrite decide_True by done; lia|].
  apply IH in Hin. case_decide; lia.
Qed.

(** Counting on from a counter [c]. *)
Lemma count_from (words : list string) : ∀ (c : list (string * Z)) w,
  getitem (foldl (λ c w, setitem c w (default 0 (getitem c w) + 1)%Z) c words) w
  = match getitem c w with
    | Some n => Some (n + occurrences w words)%Z
    | None => if decide (w ∈ words) then Some (occurrences w words) else None
    end.
Proof.
  induction words as [|x words IH]; intros c w; simpl.
  - destruct (getitem c w); [f_equal; lia|].
    destruct (decide (w ∈ [])) as [Hin|_]; [by apply elem_of_nil in Hin|done].
  - rewrite IH, getitem_setitem.
    destruct (decide (w = x)) as [->|Hne].
    + destruct (getitem c x) as [n|]; simpl; [f_equal; lia|].
      rewrite decide_True by apply list_elem_of_here. f_equal; lia.
    + destruct (getitem c w) as [n|]; [f_equal; lia|].
      destruct (decide (w ∈ words)) as [Hin|Hin].
      * rewrite decide_True by (by apply list_elem_of_further). f_equal; lia.
      * rewrite decide_False; [done|]. rewrite not_elem_of_cons. done.
Qed.

Lemma counter_getitem words w :
  getitem (counter words) w
  = if decide (w ∈ words) then Some (occurrences w words) else None.
Proof. unfold counter. by rewrite count_from. Qed.

Lemma count_from_NoDup (words : list string) : ∀ c : list (string * Z),
  NoDup c.*1 →
  NoDup (foldl (λ c w, setitem c w (default 0 (getitem c w) + 1)%Z) c words).*1.
Proof.
  induction words as [|x words IH]; intros c Hc; simpl; [done|].
  apply IH. by apply setitem_NoDup.
Qed.

Lemma counter_NoDup words : NoDup (counter words).*1.
Proof. apply count_from_NoDup. constructor. Qed.

Lemma counter_elem words w n :
  (w, n) ∈ counter words → w ∈ words ∧ n = occurrences w words.
Proof.
  intros Hin. apply (elem_getitem _ _ _ (counter_NoDup words)) in Hin.
  rewrite counter_getitem in Hin. case_decide; by simplify_eq.
Qed.

(** ** Sorting by decreasing count *)

Lemma insert_desc_perm x l : insert_desc x l ≡ₚ x :: l.
Proof.
  induction l as [|y l IH]; simpl; [done|].
  destruct (x.2 <? y.2)%Z; [|done]. rewrite IH. apply Permutation_swap.
Qed.

Lemma sorted_desc_perm l : sorted_desc l ≡ₚ l.
Proof.
  induction l as [|x l IH]; simpl; [done|].
  rewrite insert_desc_perm. by rewrite IH.
Qed.

Lemma insert_desc_desc x l : desc l → desc (insert_desc x l).
Proof.
  induction l as [|y l IH]; simpl; [done|]. intros [Hy Hl].
  destruct (x.2 <? y.2)%Z eqn:Hlt.
  - apply Z.ltb_lt in Hlt. simpl. split; [|by apply IH].
    rewrite insert_desc_perm. constructor; [lia | done].
  - apply Z.ltb_ge in Hlt. simpl. split; [|done].
    constructor; [done|]. eapply Forall_impl; [exact Hy|]. simpl. lia.
Qed.

Lemma sorted_desc_desc l : desc (sorted_desc l).
Proof. induction l as [|x l IH]; simpl; [done | by apply insert_desc_desc]. Qed.

(** In a list with decreasing counts, an earlier item counts no less. *)
Lemma desc_lookup l : desc l → ∀ i j x y,
  i ≤ j → l !! i = Some x → l !! j = Some y → (y.2 ≤ x.2)%Z.
Proof.
  induction l as [|z l IH]; intros Hd i j x y Hij Hi Hj;
    [by destruct i|]. destruct Hd as [Hz Hl].
  destruct i as [|i], j as [|j]; simplify_eq/=; [lia| |lia|].
  - rewrite Forall_forall in Hz. apply Hz. by eapply list_elem_of_lookup_2.
  - eapply (IH Hl i j); [lia|done..].
Qed.


Lemma desc_app l1 l2 :
  desc (l1 ++ l2) →
  desc l1 ∧ ∀ x y, x ∈ l1 → y ∈ l2 → (y.2 ≤ x.2)%Z.
Proof.
  induction l1 as [|z l1 IH]; simpl; [by split; [|intros ?? ?%elem_of_nil]|].
  intros [Hz Hd]. apply IH in Hd as [Hd Hcross].
  apply Forall_app in Hz as [Hz1 Hz2]. split; [done|].
  intros x y [->|Hx]%elem_of_cons Hy; [|by apply Hcross].
  rewrite Forall_forall in Hz2. by apply Hz2.
Qed.

(** ** [most_common] *)

Lemma most_common_rest n c : most_common n c ++ rest_of n c = sorted_desc c.
Proof.
  unfold most_common, rest_of. destruct (n <=? 0)%Z; [done|].
  apply take_drop.
Qed.

Lemma most_common_perm n c : most_common n c ++ rest_of n c ≡ₚ c.
Proof. rewrite most_common_rest. apply sorted_desc_perm. Qed.

Lemma most_common_length n c :
  (Z.of_nat (length (most_common n c)) ≤ Z.max 0 n)%Z.
Proof.
  unfold most_common. destruct (n <=? 0)%Z eqn:Hn; simpl; [lia|].
  apply Z.leb_gt in Hn. rewrite length_take. lia.
Qed.

Lemma most_common_elem n c x : x ∈ most_common n c → x ∈ c.
Proof.
  intros Hx. rewrite <- (most_common_perm n c). apply elem_of_app. by left.
Qed.

Lemma most_common_NoDup n c : NoDup c.*1 → NoDup (most_common n c).*1.
Proof.
  intros Hc. rewrite <- (most_common_perm n c), fmap_app in Hc.
  by apply NoDup_app in Hc as [? _].
Qed.

Lemma most_common_desc n c :
  desc (most_common n c)
  ∧ ∀ x y, x ∈ most_common n c → y ∈ rest_of n c → (y.2 ≤ x.2)%Z.
Proof.
  apply desc_app. rewrite most_common_rest. apply sorted_desc_desc.
Qed.

(** A counted item is either kept or left out, not both. *)
Lemma most_common_or_rest n c x :
  NoDup c.*1 → x ∈ c → x.1 ∉ (most_common n c).*1 → x ∈ rest_of n c.
Proof.
  intros Hc Hx Hnot. rewrite <- (most_common_perm n c) in Hx.
  apply elem_of_app in Hx as [Hx|Hx]; [|done].
  destruct Hnot. apply list_elem_of_fmap. by exists x.
Qed.


(** ** Numbering the words *)

Lemma number_from (l : list (string * Z)) : ∀ d : list (string * nat),
  NoDup (d.*1 ++ l.*1) →
  foldl (λ dictionary item, setitem dictionary item.1 (length dictionary)) d l
  = d ++ enum (length d) l.*1.
Proof.
  induction l as [|[k c] l IH]; intros d Hnd; simpl.
  - by rewrite app_nil_r.
  - simpl in Hnd. apply NoDup_app in Hnd as (Hd & Hdis & Hl).
    apply NoDup_cons in Hl as [Hk Hl].
    assert (Hfresh : k ∉ d.*1).
    { intros Hin. apply (Hdis k Hin), list_elem_of_here. }
    rewrite setitem_fresh by done. rewrite IH.
    + rewrite length_app, <- app_assoc. simpl.
      by replace (length d + 1) with (S (length d)) by lia.
    + rewrite fmap_app. simpl. rewrite <- app_assoc. simpl.
      apply NoDup_app. split; [done|]. split; [|by constructor].
      intros x Hx [->|Hx']%elem_of_cons; [done|].
      apply (Hdis x Hx). by apply list_elem_of_further.
Qed.

Lemma number_words_enum count :
  NoDup count.*1 → number_words count = enum 0 count.*1.
Proof. intros Hnd. unfold number_words. by rewrite number_from. Qed.

(** Whatever the words are, a number handed out is below the length of
    the list. *)
Lemma number_from_bound (l : list (string * Z)) : ∀ (d : list (string * nat)) b,
  length d + length l ≤ b →
  Forall (λ v, v < b) d.*2 →
  Forall (λ v, v < b)
    (foldl (λ dictionary item, setitem dictionary item.1 (length dictionary))
       d l).*2.
Proof.
  induction l as [|[k c] l IH]; intros d b Hlen Hd; simpl; [done|].
  simpl in Hlen. apply IH.
  - pose proof (length_setitem d k (length d)). lia.
  - apply Forall_forall. intros v [->|Hv]%setitem_values; [lia|].
    rewrite Forall_forall in Hd. by apply Hd.
Qed.

Lemma enum_keys o ks : (enum o ks).*1 = ks.
Proof. revert o. induction ks as [|k ks IH]; intros o; simpl; [done|]. by rewrite IH. Qed.

Lemma enum_values o ks : (enum o ks).*2 = seq o (length ks).
Proof. revert o. induction ks as [|k ks IH]; intros o; simpl; [done|]. by rewrite IH. Qed.

Lemma zip_enum o ks : zip (enum o ks).*2 (enum o ks).*1 = unenum o ks.
Proof. revert o. induction ks as [|k ks IH]; intros o; simpl; [done|]. by rewrite IH. Qed.

Lemma unenum_keys o ks : (unenum o ks).*1 = seq o (length ks).
Proof. revert o. induction ks as [|k ks IH]; intros o; simpl; [done|]. by rewrite IH. Qed.

(** A number leads back to the word at its place. *)
Lemma getitem_unenum ks : ∀ o i,
  getitem (unenum o ks) i = if decide (o ≤ i) then ks !! (i - o) else None.
Proof.
  induction ks as [|k ks IH]; intros o i; simpl.
  - by destruct (decide (o ≤ i)).
  - destruct (decide (i = o)) as [->|Hne].
    + rewrite decide_True by lia. by rewrite Nat.sub_diag.
    + rewrite IH. destruct (decide (o ≤ i)) as [Hle|Hle].
      * rewrite decide_True by lia.
        by replace (i - o) with (S (i - S o)) by lia.
      * rewrite decide_False by lia. done.
Qed.

(** A word leads to the number of its place. *)
Lemma getitem_enum ks : NoDup ks → ∀ o w i,
  getitem (enum o ks) w = Some i ↔ o ≤ i ∧ ks !! (i - o) = Some w.
Proof.
  induction 1 as [|k ks Hk Hnd IH]; intros o w i; simpl.
  - split; [done | by intros [_ ?]].
  - destruct (decide (w = k)) as [->|Hne].
    + split.
      * intros [= ->]. by rewrite Nat.sub_diag.
      * intros [Hle Hi]. destruct (i - o) as [|m] eqn:Hm; simpl in Hi.
        -- f_equal. lia.
        -- destruct Hk. by eapply list_elem_of_lookup_2.
    + rewrite IH. split.
      * intros [Hle Hi]. split; [lia|].
        by replace (i - o) with (S (i - S o)) by lia.
      * intros [Hle Hi]. destruct (i - o) as [|m] eqn:Hm; simpl in Hi.
        -- by simplify_eq.
        -- split; [lia|]. by replace (i - S o) with m by lia.
Qed.

Lemma dict_of_from {K V} `{EqDecision K} (l : list (K * V)) : ∀ d,
  NoDup (d.*1 ++ l.*1) →
  foldl (λ d kv, setitem d kv.1 kv.2) d l = d ++ l.
Proof.
  induction l as [|[k v] l IH]; intros d Hnd; simpl.
  - by rewrite app_nil_r.
  - simpl in Hnd. apply NoDup_app in Hnd as (Hd & Hdis & Hl).
    apply NoDup_cons in Hl as [Hk Hl].
    assert (Hfresh : k ∉ d.*1).
    { intros Hin. apply (Hdis k Hin), list_elem_of_here. }
    rewrite setitem_fresh by done. rewrite IH; [by rewrite <- app_assoc|].
    rewrite fmap_app. simpl. rewrite <- app_assoc. simpl.
    apply NoDup_app. split; [done|]. split; [|by constructor].
    intros x Hx [->|Hx']%elem_of_cons; [done|].
    apply (Hdis x Hx). by apply list_elem_of_further.
Qed.

Lemma dict_of_NoDup {K V} `{EqDecision K} (l : list (K * V)) :
  NoDup l.*1 → dict_of l = l.
Proof. intros Hnd. unfold dict_of. by rewrite dict_of_from. Qed.

(** A dictionary built from pairs has no key that no pair has. *)
Lemma dict_of_keys {K V} `{EqDecision K} (l : list (K * V)) k :
  k ∈ (dict_of l).*1 → k ∈ l.*1.
Proof.
  unfold dict_of.
  assert (Hgen : ∀ d, k ∈ (foldl (λ d kv, setitem d kv.1 kv.2) d l).*1 →
                      k ∈ d.*1 ∨ k ∈ l.*1).
  { induction l as [|[k0 v0] l IH]; intros d; simpl; [by left|].
    intros [Hin|Hin]%IH; [|right; by apply list_elem_of_further].
    destruct (decide (k0 ∈ d.*1)) as [Hp|Hp].
    - rewrite setitem_present in Hin by done. by left.
    - rewrite setitem_fresh, fmap_app in Hin by done.
      apply elem_of_app in Hin as [?|Hin]; [by left|].
      apply list_elem_of_singleton in Hin as ->.
      right. apply list_elem_of_here. }
  intros [Hin|Hin]%Hgen; [by apply elem_of_nil in Hin | done].
Qed.

(** ** Indexing the words *)

Lemma index_from dictionary words : ∀ data u,
  foldl (λ '(data, unk_count) word,
           match getitem dictionary word with
           | Some index => (data ++ [index], unk_count)
           | None => (data ++ [0], (unk_count + 1)%Z)
           end)
        (data, u) words
  = (data ++ map (λ w, default 0 (getitem dictionary w)) words,
     (u + misses dictionary words)%Z).
Proof.
  induction words as [|w words IH]; intros data u; simpl.
  - rewrite app_nil_r. f_equal. lia.
  - destruct (getitem dictionary w) as [i|]; rewrite IH, <- app_assoc; simpl;
      f_equal; lia.
Qed.

Lemma index_words_eq dictionary words :
  index_words dictionary words
  = (map (λ w, default 0 (getitem dictionary w)) words,
     misses dictionary words).
Proof. unfold index_words. by rewrite index_from. Qed.

(** The four results, with the loops resolved. *)
Lemma build_dataset_eq words n_words :
  let count := (UNK, (-1)%Z) :: most_common (n_words - 1) (counter words) in
  let dictionary := number_words count in
  build_dataset words n_words
  = (map (λ w, default 0 (getitem dictionary w)) words,
     (UNK, misses dictionary words)
       :: most_common (n_words - 1) (counter words),
     dictionary,
     dict_of (zip dictionary.*2 dictionary.*1)).
Proof. intros count dictionary. unfold build_dataset. by rewrite index_words_eq. Qed.


(** ** A corpus without the word [UNK] *)

Lemma most_common_words words n k :
  k ∈ (most_common n (counter words)).*1 → k ∈ words.
Proof.
  intros ([w c] & -> & Hin)%list_elem_of_fmap.
  apply most_common_elem, counter_elem in Hin. tauto.
Qed.

Lemma most_common_count words n w c :
  (w, c) ∈ most_common n (counter words) → c = occurrences w words.
Proof. intros Hin. apply most_common_elem, counter_elem in Hin. tauto. Qed.

Lemma clean_keys words n :
  UNK ∉ words → NoDup (UNK :: (most_common n (counter words)).*1).
Proof.
  intros Hunk. constructor.
  - intros Hin. by apply Hunk, (most_common_words words n).
  - apply most_common_NoDup, counter_NoDup.
Qed.

Lemma clean_dictionary words n_words :
  UNK ∉ words →
  dictionary_of words n_words
  = enum 0 (UNK :: (most_common (n_words - 1) (counter words)).*1).
Proof.
  intros Hunk. unfold dictionary_of. rewrite build_dataset_eq.
  cbv zeta. cbn [fst snd].
  rewrite number_words_enum; [done|]. by apply clean_keys.
Qed.

Lemma clean_reversed words n_words :
  UNK ∉ words →
  reversed_of words n_words
  = unenum 0 (UNK :: (most_common (n_words - 1) (counter words)).*1).
Proof.
  intros Hunk. unfold reversed_of. rewrite build_dataset_eq.
  cbv zeta. cbn [fst snd].
  rewrite number_words_enum by (by apply clean_keys).
  rewrite zip_enum. apply dict_of_NoDup.
  rewrite unenum_keys. apply NoDup_seq.
Qed.


Lemma data_of_eq words n_words :
  data_of words n_words
  = map (λ w, default 0 (getitem (dictionary_of words n_words) w)) words.
Proof. unfold data_of, dictionary_of. by rewrite build_dataset_eq. Qed.

Lemma count_of_eq words n_words :
  count_of words n_words
  = (UNK, misses (dictionary_of words n_words) words)
      :: most_common (n_words - 1) (counter words).
Proof. unfold count_of, dictionary_of. by rewrite build_dataset_eq. Qed.

Lemma dictionary_of_eq words n_words :
  dictionary_of words n_words
  = number_words ((UNK, (-1)%Z) :: most_common (n_words - 1) (counter words)).
Proof. unfold dictionary_of. by rewrite build_dataset_eq. Qed.

Lemma reversed_of_eq words n_words :
  reversed_of words n_words
  = dict_of (zip (dictionary_of words n_words).*2
                 (dictionary_of words n_words).*1).
Proof. unfold reversed_of, dictionary_of. by rewrite build_dataset_eq. Qed.


(** ** Counting words *)

Lemma hits_nil words : hits [] words = 0%Z.
Proof.
  induction words as [|w words IH]; simpl; [done|]. rewrite IH.
  destruct (decide (w ∈ [])) as [Hin|_]; [by apply elem_of_nil in Hin|done].
Qed.

Lemma hits_cons k ks words :
  k ∉ ks → hits (k :: ks) words = (occurrences k words + hits ks words)%Z.
Proof.
  intros Hk. induction words as [|w words IH]; simpl; [done|]. rewrite IH.
  destruct (decide (k = w)) as [->|Hne].
  - rewrite decide_True by apply list_elem_of_here.
    rewrite (decide_False (P := w ∈ ks)) by done. lia.
  - destruct (decide (w ∈ ks)) as [Hin|Hin].
    + rewrite decide_True by (by apply list_elem_of_further). lia.
    + rewrite decide_False; [lia|]. rewrite not_elem_of_cons. split; [|done].
      by intros ->.
Qed.

Lemma total_cons x l : total (x :: l) = (x.2 + total l)%Z.
Proof. done. Qed.

Lemma total_hits mc words :
  NoDup mc.*1 →
  (∀ w c, (w, c) ∈ mc → c = occurrences w words) →
  total mc = hits mc.*1 words.
Proof.
  induction mc as [|[k c] mc IH]; simpl; intros Hnd Hocc.
  - by rewrite hits_nil.
  - apply NoDup_cons in Hnd as [Hk Hnd]. rewrite hits_cons by done.
    rewrite IH; [|done|].
    + rewrite (Hocc k c) by apply list_elem_of_here. unfold total. done.
    + intros w c' Hin. apply Hocc. by apply list_elem_of_further.
Qed.

Lemma misses_hits d ks words :
  (∀ w, w ∈ words → is_Some (getitem d w) ↔ w ∈ ks) →
  (misses d words + hits ks words)%Z = Z.of_nat (length words).
Proof.
  induction words as [|w words IH]; simpl; intros Hd; [done|].
  assert (Hw := Hd w (list_elem_of_here _ _)).
  assert (Hrest : (misses d words + hits ks words)%Z = Z.of_nat (length words)).
  { apply IH. intros x Hx. apply Hd. by apply list_elem_of_further. }
  destruct (getitem d w) as [i|] eqn:Hg.
  - rewrite decide_True by (apply Hw; eauto). lia.
  - rewrite decide_False; [lia|]. intros Hin. apply Hw in Hin.
    by destruct Hin.
Qed.

Lemma misses_zeros d words :
  (∀ w, w ∈ words → getitem d w ≠ Some 0) →
  misses d words = zeros (map (λ w, default 0 (getitem d w)) words).
Proof.
  induction words as [|w words IH]; simpl; intros Hd; [done|].
  rewrite IH by (intros x Hx; apply Hd; by apply list_elem_of_further).
  assert (Hw := Hd w (list_elem_of_here _ _)).
  destruct (getitem d w) as [[|i]|]; simpl; [done|done|done].
Qed.


(** ** A corpus in which [UNK] is a frequent word *)

Lemma length_setitem_ge {K V} `{EqDecision K} (d : list (K * V)) k v :
  length d ≤ length (setitem d k v).
Proof.
  induction d as [|[k0 v0] d IH]; simpl; [lia|].
  destruct (decide (k = k0)); simpl; lia.
Qed.

(** Once the dictionary is not empty, the numbers handed out are not 0. *)
Lemma number_from_pos (l : list (string * Z)) : ∀ d : list (string * nat),
  1 ≤ length d →
  Forall (λ v, 1 ≤ v) d.*2 →
  Forall (λ v, 1 ≤ v)
    (foldl (λ dictionary item, setitem dictionary item.1 (length dictionary))
       d l).*2.
Proof.
  induction l as [|[k c] l IH]; intros d Hlen Hd; simpl; [done|].
  apply IH.
  - pose proof (length_setitem_ge d k (length d)). lia.
  - apply Forall_forall. intros v [->|Hv]%setitem_values; [done|].
    rewrite Forall_forall in Hd. by apply Hd.
Qed.

Lemma enum_pos ks : ∀ o, 1 ≤ o → Forall (λ v, 1 ≤ v) (enum o ks).*2.
Proof.
  induction ks as [|k ks IH]; intros o Ho; simpl; constructor; [done|].
  apply IH. lia.
Qed.

(** When [UNK] comes up again in [count], no index 0 is left. *)
Lemma number_words_collision (mc : list (string * Z)) :
  NoDup mc.*1 → UNK ∈ mc.*1 →
  Forall (λ v, 1 ≤ v) (number_words ((UNK, (-1)%Z) :: mc)).*2.
Proof.
  intros Hnd ([k c] & Hk & Hin)%list_elem_of_fmap. simpl in Hk. subst k.
  apply list_elem_of_split in Hin as (l1 & l2 & ->).
  rewrite fmap_app in Hnd. simpl in Hnd.
  apply NoDup_app in Hnd as (Hl1 & Hdis & _).
  assert (Hnd1 : NoDup ([(UNK, (-1)%Z)].*1 ++ l1.*1)).
  { simpl. constructor; [|done]. intros Hin. apply (Hdis _ Hin).
    apply list_elem_of_here. }
  unfold number_words.
  change ((UNK, (-1)%Z) :: l1 ++ (UNK, c) :: l2)
    with ([(UNK, (-1)%Z)] ++ l1 ++ (UNK, c) :: l2).
  rewrite foldl_app. simpl.
  rewrite foldl_app, (number_from l1 [(UNK, 0)] Hnd1). simpl.
  apply number_from_pos; simpl; [lia|].
  constructor; [lia|]. apply enum_pos. lia.
Qed.

End Word2VecFacts.

(** X1.  Whatever the words and whatever [n_words], [build_dataset] returns
    one index per word, and every index is below [max(1, n_words)], the
    number of rows of a vocabulary of [n_words] words; [count] has at most
    that many entries. *)
Theorem build_dataset_indices (words : list string) (n_words : Z) :
  length (Word2Vec.data_of words n_words) = length words
  ∧ Forall (λ i, (Z.of_nat i < Z.max 1 n_words)%Z)
           (Word2Vec.data_of words n_words)
  ∧ (Z.of_nat (length (Word2Vec.count_of words n_words)) ≤ Z.max 1 n_words)%Z.
Proof.
  pose proof (Word2VecFacts.most_common_length (n_words - 1)
                (Word2Vec.counter words)) as Hlen.
  rewrite Word2VecFacts.data_of_eq, Word2VecFacts.count_of_eq.
  split; [by rewrite length_map|]. split; [|simpl; lia].
  apply Forall_forall. intros i (w & -> & Hw)%list_elem_of_fmap.
  destruct (Word2Vec.getitem _ _) as [i|] eqn:Hi; simpl; [|lia].
  apply Word2VecFacts.getitem_Some_elem in Hi.
  assert (Hv : i ∈ (Word2Vec.dictionary_of words n_words).*2).
  { apply list_elem_of_fmap. by exists (w, i). }
  rewrite Word2VecFacts.dictionary_of_eq in Hv. unfold Word2Vec.number_words in Hv.
  pose proof (Word2VecFacts.number_from_bound
                ((Word2Vec.UNK, (-1)%Z)
                   :: Word2Vec.most_common (n_words - 1) (Word2Vec.counter words))
                [] _ (le_n _) (Forall_nil_2 _)) as Hb.
  rewrite Forall_forall in Hb. apply Hb in Hv. simpl in Hv. lia.
Qed.

(** X2.  If the word [UNK] does not occur in [words], no occurrence is lost:
    the counts in [count] add up to the number of words, and the count of
    the first entry, [UNK], is the number of zeros in [data]. *)
Theorem build_dataset_counts (words : list string) (n_words : Z) :
  Word2Vec.UNK ∉ words →
  Word2Vec.total (Word2Vec.count_of words n_words) = Z.of_nat (length words)
  ∧ Word2Vec.count_of words n_words !! 0
    = Some (Word2Vec.UNK, Word2VecAux.zeros (Word2Vec.data_of words n_words)).
Proof.
  intros Hunk.
  set (mc := Word2Vec.most_common (n_words - 1) (Word2Vec.counter words)).
  pose proof (Word2VecFacts.clean_keys words (n_words - 1) Hunk) as Hnd.
  assert (Hget : ∀ w i, Word2Vec.getitem (Word2Vec.dictionary_of words n_words) w
                        = Some i ↔ (Word2Vec.UNK :: mc.*1) !! i = Some w).
  { intros w i. rewrite Word2VecFacts.clean_dictionary by done.
    rewrite (Word2VecFacts.getitem_enum _ Hnd 0 w i), Nat.sub_0_r.
    split; [tauto | split; [lia | done]]. }
  rewrite Word2VecFacts.count_of_eq, Word2VecFacts.data_of_eq. split.
  - rewrite Word2VecFacts.total_cons. fold mc. simpl.
    rewrite (Word2VecFacts.total_hits mc words).
    + apply Word2VecFacts.misses_hits. intros w Hw. split.
      * intros [i Hi]. apply Hget in Hi. destruct i as [|i]; simpl in Hi.
        -- by simplify_eq.
        -- by eapply list_elem_of_lookup_2.
      * intros (i & Hi)%list_elem_of_lookup_1. exists (S i). by apply Hget.
    + by apply NoDup_cons in Hnd as [_ ?].
    + intros w c. apply Word2VecFacts.most_common_count.
  - simpl. do 2 f_equal. apply Word2VecFacts.misses_zeros.
    intros w Hw Hi. apply Hget in Hi. simpl in Hi. by simplify_eq.
Qed.

Lemma build_dataset_counts_witness :
  Word2Vec.total (Word2Vec.count_of ["a"; "b"; "a"; "c"; "b"; "a"; "d"] 3) = 7%Z
  ∧ Word2Vec.count_of ["a"; "b"; "a"; "c"; "b"; "a"; "d"] 3 !! 0
    = Some ("UNK", 2%Z).
Proof.
  apply (build_dataset_counts ["a"; "b"; "a"; "c"; "b"; "a"; "d"] 3).
  vm_compute. intros Hin. by repeat (apply elem_of_cons in Hin as [?|Hin]; [done|]);
    apply elem_of_nil in Hin.
Defined.

(** X3.  If the word [UNK] does not occur in [words], the two dictionaries
    are inverse to each other and [UNK] has index 0; decoding the index
    stored for a word gives the word back if the dictionary holds it, and
    [UNK] otherwise. *)
Theorem build_dataset_round_trip (words : list string) (n_words : Z) :
  Word2Vec.UNK ∉ words →
  let dictionary := Word2Vec.dictionary_of words n_words in
  let reversed_dictionary := Word2Vec.reversed_of words n_words in
  Word2Vec.getitem dictionary Word2Vec.UNK = Some 0
  ∧ (∀ w i, Word2Vec.getitem dictionary w = Some i
            ↔ Word2Vec.getitem reversed_dictionary i = Some w)
  ∧ (∀ k w, words !! k = Some w →
       ∃ i, Word2Vec.data_of words n_words !! k = Some i
            ∧ Word2Vec.getitem reversed_dictionary i
              = Some (if Word2Vec.getitem dictionary w is Some _
                      then w else Word2Vec.UNK)).
Proof.
  intros Hunk dictionary reversed_dictionary.
  pose proof (Word2VecFacts.clean_keys words (n_words - 1) Hunk) as Hnd.
  set (ks := Word2Vec.UNK
               :: (Word2Vec.most_common (n_words - 1)
                     (Word2Vec.counter words)).*1) in *.
  assert (Hd : ∀ w i, Word2Vec.getitem dictionary w = Some i ↔ ks !! i = Some w).
  { intros w i. unfold dictionary.
    rewrite Word2VecFacts.clean_dictionary by done. fold ks.
    rewrite (Word2VecFacts.getitem_enum _ Hnd 0 w i), Nat.sub_0_r.
    split; [tauto | split; [lia | done]]. }
  assert (Hr : ∀ i, Word2Vec.getitem reversed_dictionary i = ks !! i).
  { intros i. unfold reversed_dictionary.
    rewrite Word2VecFacts.clean_reversed by done. fold ks.
    rewrite Word2VecFacts.getitem_unenum, Nat.sub_0_r.
    by rewrite decide_True by lia. }
  split; [by apply Hd|]. split.
  - intros w i. by rewrite Hd, Hr.
  - intros k w Hk. rewrite Word2VecFacts.data_of_eq, list_lookup_fmap, Hk.
    simpl. fold dictionary. eexists; split; [done|].
    destruct (Word2Vec.getitem dictionary w) as [i|] eqn:Hi; simpl.
    + rewrite Hr. by apply Hd.
    + by rewrite Hr.
Qed.

Lemma build_dataset_round_trip_witness :
  Word2Vec.getitem (Word2Vec.dictionary_of ["b"; "a"; "a"; "b"; "c"] 3) "b"
  = Some 1
  ↔ Word2Vec.getitem (Word2Vec.reversed_of ["b"; "a"; "a"; "b"; "c"] 3) 1
    = Some "b".
Proof.
  apply (proj1 (proj2 (build_dataset_round_trip ["b"; "a"; "a"; "b"; "c"] 3
                         ltac:(vm_compute; intros Hin;
                               repeat (apply elem_of_cons in Hin as [?|Hin];
                                       [done|]);
                               by apply elem_of_nil in Hin)))).
Defined.

(** X4.  If the word [UNK] does not occur in [words], indices follow
    frequency: of two words with indices from 1 on, the one with the smaller
    index occurs at least as often; and a word of the corpus that is left
    out of the dictionary occurs at most as often as any word that is in
    it. *)
Theorem build_dataset_frequency (words : list string) (n_words : Z) :
  Word2Vec.UNK ∉ words →
  let dictionary := Word2Vec.dictionary_of words n_words in
  (∀ w1 w2 i1 i2,
     Word2Vec.getitem dictionary w1 = Some i1 →
     Word2Vec.getitem dictionary w2 = Some i2 →
     1 ≤ i1 ≤ i2 →
     (Word2Vec.occurrences w2 words ≤ Word2Vec.occurrences w1 words)%Z)
  ∧ (∀ w w' i',
       w ∈ words →
       Word2Vec.getitem dictionary w = None →
       Word2Vec.getitem dictionary w' = Some i' →
       1 ≤ i' →
       (Word2Vec.occurrences w words ≤ Word2Vec.occurrences w' words)%Z).
Proof.
  intros Hunk dictionary.
  pose proof (Word2VecFacts.clean_keys words (n_words - 1) Hunk) as Hnd.
  set (mc := Word2Vec.most_common (n_words - 1) (Word2Vec.counter words)) in *.
  destruct (Word2VecFacts.most_common_desc (n_words - 1)
              (Word2Vec.counter words)) as [Hdesc Hcross]. fold mc in Hdesc, Hcross.
  assert (Hd : ∀ w i, Word2Vec.getitem dictionary w = Some (S i) →
                      mc !! i = Some (w, Word2Vec.occurrences w words)).
  { intros w i. unfold dictionary.
    rewrite Word2VecFacts.clean_dictionary by done. fold mc.
    rewrite (Word2VecFacts.getitem_enum _ Hnd 0 w (S i)). simpl.
    intros [_ Hi]. rewrite list_lookup_fmap in Hi.
    destruct (mc !! i) as [[w' c]|] eqn:Hm; simplify_eq/=.
    f_equal. f_equal. eapply Word2VecFacts.most_common_count.
    by eapply list_elem_of_lookup_2. }
  split.
  - intros w1 w2 i1 i2 H1 H2 [Hle1 Hle].
    destruct i1 as [|i1]; [lia|]. destruct i2 as [|i2]; [lia|].
    apply Hd in H1, H2.
    apply (Word2VecFacts.desc_lookup mc Hdesc i1 i2 _ _ ltac:(lia) H1 H2).
  - intros w w' i' Hw Hnone Hsome Hle. destruct i' as [|i']; [lia|].
    apply Hd in Hsome. apply list_elem_of_lookup_2 in Hsome.
    assert (Hrest : (w, Word2Vec.occurrences w words)
                    ∈ Word2VecAux.rest_of (n_words - 1) (Word2Vec.counter words)).
    { apply (Word2VecFacts.most_common_or_rest _ _ (w, _)).
      - apply Word2VecFacts.counter_NoDup.
      - apply Word2VecFacts.getitem_Some_elem.
        rewrite Word2VecFacts.counter_getitem. by rewrite decide_True.
      - simpl. fold mc. intros Hin.
        apply Word2VecFacts.getitem_None in Hnone. apply Hnone.
        unfold dictionary. rewrite Word2VecFacts.clean_dictionary by done.
        rewrite Word2VecFacts.enum_keys. by apply list_elem_of_further. }
    apply (Hcross _ _ Hsome Hrest).
Qed.

Lemma build_dataset_frequency_witness :
  (Word2Vec.occurrences "b" ["a"; "b"; "a"; "c"; "b"; "a"; "d"]
   ≤ Word2Vec.occurrences "a" ["a"; "b"; "a"; "c"; "b"; "a"; "d"])%Z
  ∧ (Word2Vec.occurrences "d" ["a"; "b"; "a"; "c"; "b"; "a"; "d"]
     ≤ Word2Vec.occurrences "b" ["a"; "b"; "a"; "c"; "b"; "a"; "d"])%Z.
Proof.
  pose proof (build_dataset_frequency ["a"; "b"; "a"; "c"; "b"; "a"; "d"] 3
                ltac:(vm_compute; intros Hin;
                      repeat (apply elem_of_cons in Hin as [?|Hin]; [done|]);
                      by apply elem_of_nil in Hin)) as [Hord Hout].
  split.
  - apply (Hord "a" "b" 1 2); [reflexivity | reflexivity | lia].
  - apply (Hout "d" "b" 2); [|reflexivity|reflexivity|lia].
    repeat (first [apply list_elem_of_here | apply list_elem_of_further]).
Defined.

(** X5.  If [UNK] itself is among the [n_words - 1] most common words, the
    index 0 is lost: no word has index 0 in [dictionary], and
    [reversed_dictionary] has no entry for 0 -- while every word that the
    dictionary does not hold is still stored as 0 in [data]. *)
Theorem build_dataset_unk_collision (words : list string) (n_words : Z) :
  Word2Vec.UNK
    ∈ (Word2Vec.most_common (n_words - 1) (Word2Vec.counter words)).*1 →
  let dictionary := Word2Vec.dictionary_of words n_words in
  (∀ w, Word2Vec.getitem dictionary w ≠ Some 0)
  ∧ Word2Vec.getitem (Word2Vec.reversed_of words n_words) 0 = None
  ∧ (∀ k w, words !! k = Some w → Word2Vec.getitem dictionary w = None →
            Word2Vec.data_of words n_words !! k = Some 0).
Proof.
  intros Hunk dictionary.
  assert (Hpos : Forall (λ v, 1 ≤ v) dictionary.*2).
  { unfold dictionary. rewrite Word2VecFacts.dictionary_of_eq.
    apply Word2VecFacts.number_words_collision; [|done].
    apply Word2VecFacts.most_common_NoDup, Word2VecFacts.counter_NoDup. }
  rewrite Forall_forall in Hpos.
  split; [|split].
  - intros w Hw. apply Word2VecFacts.getitem_Some_elem in Hw.
    assert (H0 : 0 ∈ dictionary.*2).
    { apply list_elem_of_fmap. by exists (w, 0). }
    apply Hpos in H0. lia.
  - apply Word2VecFacts.getitem_None. intros Hin.
    rewrite Word2VecFacts.reversed_of_eq in Hin.
    apply Word2VecFacts.dict_of_keys in Hin. fold dictionary in Hin.
    rewrite fst_zip in Hin by (by rewrite !length_fmap).
    apply Hpos in Hin. lia.
  - intros k w Hk Hnone.
    rewrite Word2VecFacts.data_of_eq, list_lookup_fmap, Hk. simpl.
    fold dictionary. by rewrite Hnone.
Qed.

Lemma build_dataset_unk_collision_witness :
  Word2Vec.getitem
    (Word2Vec.reversed_of ["a"; "UNK"; "a"; "UNK"; "b"; "UNK"; "c"] 4) 0 = None
  ∧ Word2Vec.data_of ["a"; "UNK"; "a"; "UNK"; "b"; "UNK"; "c"] 4 !! 6 = Some 0.
Proof.
  pose proof (build_dataset_unk_collision
                ["a"; "UNK"; "a"; "UNK"; "b"; "UNK"; "c"] 4
                ltac:(vm_compute; apply list_elem_of_here)) as (_ & Hrev & Hdata).
  split; [exact Hrev|]. apply (Hdata 6 "c"); reflexivity.
Defined.

(* ===================================================================== *)
(** * [generate_batch], loop by loop *)
(* ===================================================================== *)

Module BatchFacts.
Import Batch BatchAux.

Section facts.
Context `{PyLib}.
Implicit Types (s : globals) (data buffer : list Z)
  (batch context : list (option Z)).

(** ** What a finished computation went through *)

Lemma bind_done {A B} (c : M A) (f : A → M B) s b s' :
  (c ≫= f) s = Done b s' → ∃ a s1, c s = Done a s1 ∧ f a s1 = Done b s'.
Proof.
  unfold mbind, M_bind. destruct (c s) as [a s1|e s1| |]; [|done..].
  intros Hf. by exists a, s1.
Qed.

Lemma ret_done {A} (a b : A) s s' :
  (mret a : M A) s = Done b s' → b = a ∧ s' = s.
Proof. unfold mret, M_ret. by intros [= <- <-]. Qed.

Lemma assert_done cond s u s' :
  assert cond s = Done u s' → cond = true ∧ s' = s.
Proof. unfold assert. destruct cond; [by intros [_ ->]%ret_done | done]. Qed.

Lemma pymod_done a b s r s' :
  pymod a b s = Done r s' → b ≠ 0 ∧ r = a mod b ∧ s' = s.
Proof.
  unfold pymod. destruct (decide (b = 0)); [done|].
  by intros [-> ->]%ret_done.
Qed.

Lemma pydiv_done a b s r s' :
  pydiv a b s = Done r s' → b ≠ 0 ∧ r = a / b ∧ s' = s.
Proof.
  unfold pydiv. destruct (decide (b = 0)); [done|].
  by intros [-> ->]%ret_done.
Qed.

Lemma getitem_done {A} (l : list A) k s x s' :
  getitem l k s = Done x s' → l !! k = Some x ∧ s' = s.
Proof.
  unfold getitem. destruct (l !! k) as [y|]; [|done].
  by intros [-> ->]%ret_done.
Qed.

Lemma store_done arr k v s arr' s' :
  store arr k v s = Done arr' s' →
  k < length arr ∧ int32 v = true ∧ arr' = <[k := Some v]> arr ∧ s' = s.
Proof.
  unfold store. destruct (decide (k < length arr)); [|done].
  destruct (int32 v); [|done]. by intros [-> ->]%ret_done.
Qed.

(** ** Advancing through [data] *)

Lemma advance_done data span buffer s b s' :
  advance data span buffer s = Done b s' →
  ∃ x, data !! data_index s = Some x
       ∧ b = deque_append span buffer x
       ∧ data_index s' = (data_index s + 1) mod length data
       ∧ generator s' = generator s.
Proof.
  unfold advance.
  intros (i & s1 & [= <- <-] & Hrest)%bind_done.
  apply bind_done in Hrest as (x & s2 & [Hx ->]%getitem_done & Hrest).
  apply bind_done in Hrest as (i' & s3 & (_ & -> & ->)%pymod_done & Hrest).
  apply bind_done in Hrest as (u & s4 & Hset & [-> ->]%ret_done).
  unfold set_index in Hset. simplify_eq. by exists x.
Qed.

Lemma word_at data p x :
  data !! (p mod length data) = Some x → word data p = x.
Proof. unfold word. by intros ->. Qed.

(** A [deque] that has room left keeps everything. *)
Lemma deque_append_room span buffer x :
  length buffer < span → deque_append span buffer x = buffer ++ [x].
Proof.
  intros Hlen. unfold deque_append. rewrite decide_False; [done|].
  rewrite length_app. simpl. lia.
Qed.

(** A full [deque] drops its oldest item: the window moves on by one. *)
Lemma deque_append_window data span p :
  0 < span →
  deque_append span (window data span p) (word data (p + span))
  = window data span (S p).
Proof.
  intros Hspan. unfold deque_append, window.
  rewrite decide_True by (rewrite length_app, length_map, length_seq; simpl; lia).
  destruct span as [|n]; [lia|]. rewrite (seq_S n (S p)), map_app. simpl.
  rewrite drop_0. do 3 f_equal. lia.
Qed.

(** The first loop: from an empty [deque], [n] steps load the [n] words
    from [data_index] on. *)
Lemma fill_done data span : ∀ n p buffer s b s',
  length buffer + n ≤ span →
  data_index s = p mod length data →
  fill n data span buffer s = Done b s' →
  b = buffer ++ map (word data) (seq p n)
  ∧ data_index s' = (p + n) mod length data
  ∧ generator s' = generator s.
Proof.
  induction n as [|n IH]; intros p buffer s b s' Hlen Hp; simpl.
  - intros [-> ->]%ret_done. by rewrite app_nil_r, Nat.add_0_r.
  - intros (b1 & s1 & (x & Hx & -> & Hi & Hg)%advance_done & Hrest)%bind_done.
    rewrite Hp in Hx. apply word_at in Hx. subst x.
    rewrite deque_append_room in Hrest by lia.
    apply (IH (S p)) in Hrest as (-> & Hi' & Hg').
    + rewrite <- app_assoc. simpl. split; [done|]. split; [|congruence].
      rewrite Hi'. f_equal. lia.
    + rewrite length_app. simpl. lia.
    + rewrite Hi, Hp. rewrite Nat.Div0.add_mod_idemp_l. f_equal. lia.
Qed.

(** The first step of a loop over [data] needs [data_index] in range. *)
Lemma fill_first data span n buffer s b s' :
  fill (S n) data span buffer s = Done b s' → data_index s < length data.
Proof.
  simpl. intros (b1 & s1 & (x & Hx & _)%advance_done & _)%bind_done.
  by eapply lookup_lt_Some.
Qed.

(** ** Choosing the context positions *)

Lemma randint0_done span s t s' :
  randint0 span s = Done t s' → data_index s' = data_index s.
Proof.
  unfold randint0. destruct (randbelow span (generator s)) as [t0 g].
  by intros [= <- <-].
Qed.

(** The [while] loop ends on a target that is not to be avoided. *)
Lemma pick_done fuel span : ∀ target avoid s t s',
  pick fuel span target avoid s = Done t s' →
  (t ∉ avoid) ∧ data_index s' = data_index s.
Proof.
  induction fuel as [|fuel IH]; intros target avoid s t s'; simpl.
  - destruct (decide (target ∈ avoid)); [done|]. by intros [-> ->]%ret_done.
  - destruct (decide (target ∈ avoid)); [|by intros [-> ->]%ret_done].
    intros (t0 & s1 & Hr & Hrest)%bind_done.
    apply randint0_done in Hr. apply IH in Hrest as [Ht Hi].
    split; [done | congruence].
Qed.

(** The loop over [j]: [n] cells from [i * num_skips + j] on are written,
    each with the word in the middle of the buffer and a word at a target;
    the targets differ from one another and from all in [avoid]. *)
Lemma skips_done fuel i ns sw span buffer :
  ∀ n j target avoid batch context s b c s',
    skips fuel n j i ns sw span buffer target avoid batch context s
    = Done (b, c) s' →
    data_index s' = data_index s
    ∧ length b = length batch ∧ length c = length context
    ∧ (∀ k, k < i * ns + j ∨ i * ns + j + n ≤ k →
            b !! k = batch !! k ∧ c !! k = context !! k)
    ∧ ∃ ts, length ts = n ∧ NoDup ts ∧ (∀ t, t ∈ ts → t ∉ avoid)
            ∧ ∀ m t, ts !! m = Some t →
                ∃ x y, buffer !! sw = Some x ∧ buffer !! t = Some y
                       ∧ b !! (i * ns + j + m) = Some (Some x)
                       ∧ c !! (i * ns + j + m) = Some (Some y).
Proof.
  induction n as [|n IH]; intros j target avoid batch context s b c s'; simpl.
  - intros [[= -> ->] ->]%ret_done. repeat split; try done.
    exists []. repeat split; [constructor | by intros ? ?%elem_of_nil | done].
  - intros (t0 & s1 & [Ht0 Hi1]%pick_done & Hrest)%bind_done.
    apply bind_done in Hrest as (x & s2 & [Hx ->]%getitem_done & Hrest).
    apply bind_done in Hrest
      as (batch1 & s3 & (Hk & _ & -> & ->)%store_done & Hrest).
    apply bind_done in Hrest as (y & s4 & [Hy ->]%getitem_done & Hrest).
    apply bind_done in Hrest
      as (context1 & s5 & (Hk' & _ & -> & ->)%store_done & Hrest).
    apply IH in Hrest as (Hi & Hlb & Hlc & Hframe & ts & Hlen & Hnd & Hav & Hcells).
    rewrite length_insert in Hlb, Hlc.
    split; [congruence|]. split; [done|]. split; [done|]. split.
    + intros k Hk0.
      destruct (Hframe k) as [-> ->]; [lia|].
      rewrite !list_lookup_insert_ne by lia. done.
    + exists (t0 :: ts). split; [simpl; by rewrite Hlen|]. split; [|split].
      * constructor; [|done]. intros Hin. apply Hav in Hin.
        apply Hin, elem_of_app. right. apply list_elem_of_here.
      * intros t [->|Hin]%elem_of_cons; [done|]. apply Hav in Hin.
        intros Hin'. apply Hin, elem_of_app. by left.
      * intros [|m] t Hm; simpl in Hm.
        -- simplify_eq. exists x, y. rewrite Nat.add_0_r.
           destruct (Hframe (i * ns + j)) as [-> ->]; [lia|].
           rewrite !list_lookup_insert_eq by done. done.
        -- destruct (Hcells m t Hm) as (x' & y' & ? & ? & Hb & Hc).
           exists x', y'.
           replace (i * ns + j + S m) with (i * ns + S j + m) by lia. done.
Qed.

Lemma window_lookup data span p t y :
  window data span p !! t = Some y → t < span ∧ y = word data (p + t).
Proof.
  unfold window. rewrite list_lookup_fmap.
  destruct (seq p span !! t) as [q|] eqn:Hq; [|done].
  apply lookup_seq in Hq as [-> Ht]. by intros [= <-].
Qed.

(** The loop over [i]: row after row, the buffer is the window of [data]
    that begins [i] places after the start. *)
Lemma rows_done fuel data ns sw span (Hspan : 0 < span) :
  ∀ n i p buffer batch context s b c s',
    buffer = window data span p →
    data_index s = (p + span) mod length data →
    rows fuel n i data ns sw span buffer batch context s = Done (b, c) s' →
    data_index s' = (p + span + n) mod length data
    ∧ length b = length batch ∧ length c = length context
    ∧ (∀ k, k < i * ns ∨ (i + n) * ns ≤ k →
            b !! k = batch !! k ∧ c !! k = context !! k)
    ∧ ∃ tss, length tss = n
        ∧ Forall (λ ts, length ts = ns ∧ NoDup ts
                        ∧ Forall (λ t, t < span ∧ t ≠ sw) ts) tss
        ∧ ∀ r ts m t, tss !! r = Some ts → ts !! m = Some t →
            b !! ((i + r) * ns + m) = Some (Some (word data (p + r + sw)))
            ∧ c !! ((i + r) * ns + m) = Some (Some (word data (p + r + t))).
Proof.
  induction n as [|n IH]; intros i p buffer batch context s b c s' Hbuf Hidx;
    simpl.
  - intros [[= -> ->] ->]%ret_done. rewrite Nat.add_0_r.
    repeat split; try done. exists []. repeat split; [constructor | done..].
  - intros ([b1 c1] & s1 & Hskips & Hrest)%bind_done.
    apply skips_done in Hskips
      as (Hi1 & Hlb1 & Hlc1 & Hframe1 & ts & Hlen & Hnd & Hav & Hcells).
    apply bind_done in Hrest
      as (buffer' & s2 & (x & Hx & -> & Hi2 & _)%advance_done & Hrest).
    rewrite Hi1, Hidx in Hx. apply word_at in Hx. subst x buffer.
    rewrite deque_append_window in Hrest by done.
    apply (IH (S i) (S p)) in Hrest
      as (Hi & Hlb & Hlc & Hframe & tss & Hlens & Hall & Hrows); [|done|].
    2:{ rewrite Hi2, Hi1, Hidx, Nat.Div0.add_mod_idemp_l. f_equal. lia. }
    split; [rewrite Hi; f_equal; lia|].
    split; [congruence|]. split; [congruence|]. split.
    + intros k Hk.
      destruct (Hframe k) as [-> ->]; [nia|].
      destruct (Hframe1 k) as [-> ->]; [nia|]. done.
    + exists (ts :: tss). split; [simpl; by rewrite Hlens|]. split.
      * constructor; [|done]. split; [done|]. split; [done|].
        apply Forall_forall. intros t Ht.
        destruct (list_elem_of_lookup_1 _ _ Ht) as [m Hm].
        destruct (Hcells m t Hm) as (x & y & _ & Hy%window_lookup & _).
        split; [tauto|]. intros ->. apply (Hav sw Ht), list_elem_of_here.
      * intros [|r] ts0 m t Hr Hm; simpl in Hr.
        -- injection Hr as <-.
           assert (Hmlt : m < ns).
           { rewrite <- Hlen. by eapply lookup_lt_Some. }
           destruct (Hcells m t Hm)
             as (x & y & Hx%window_lookup & Hy%window_lookup & Hb & Hc).
           destruct Hx as [_ ->], Hy as [_ ->].
           rewrite !Nat.add_0_r in *.
           destruct (Hframe (i * ns + m)) as [-> ->]; [nia|]. done.
        -- destruct (Hrows r ts0 m t Hr Hm) as [Hb Hc].
           replace ((i + S r) * ns + m) with ((S i + r) * ns + m) by lia.
           replace (p + S r + sw) with (S p + r + sw) by lia.
           replace (p + S r + t) with (S p + r + t) by lia. done.
Qed.

Lemma word_lookup data p :
  0 < length data → data !! (p mod length data) = Some (word data p).
Proof.
  intros HL. unfold word.
  destruct (lookup_lt_is_Some_2 data (p mod length data)) as [x ->]; [|done].
  apply Nat.mod_upper_bound. lia.
Qed.

(** The last line of [generate_batch] takes back the [span] steps of the
    first loop. *)
Lemma step_back (d n span L : nat) :
  0 < L →
  Z.to_nat ((Z.of_nat ((d + span + n) mod L) + Z.of_nat L - Z.of_nat span)
            `mod` Z.of_nat L)
  = (d + n) mod L.
Proof.
  intros HL. rewrite Nat2Z.inj_mod.
  replace (Z.of_nat (d + span + n) `mod` Z.of_nat L + Z.of_nat L
           - Z.of_nat span)%Z
    with (Z.of_nat (d + span + n) `mod` Z.of_nat L
          + (Z.of_nat L - Z.of_nat span))%Z by lia.
  rewrite Zplus_mod_idemp_l.
  replace (Z.of_nat (d + span + n) + (Z.of_nat L - Z.of_nat span))%Z
    with (Z.of_nat (d + n) + 1 * Z.of_nat L)%Z by lia.
  rewrite Z_mod_plus_full, <- Nat2Z.inj_mod. apply Nat2Z.id.
Qed.

(** ** The whole call *)

Lemma generate_batch_done fuel data bs ns sw s b c s' :
  generate_batch fuel data bs ns sw s = Done (b, c) s' →
  0 < ns ∧ bs mod ns = 0 ∧ ns ≤ 2 * sw ∧ data_index s < length data
  ∧ data_index s' = (data_index s + bs / ns) mod length data
  ∧ length b = bs ∧ length c = bs
  ∧ ∃ tss, length tss = bs / ns
      ∧ Forall (λ ts, length ts = ns ∧ NoDup ts
                      ∧ Forall (λ t, t < 2 * sw + 1 ∧ t ≠ sw) ts) tss
      ∧ ∀ r ts m t, tss !! r = Some ts → ts !! m = Some t →
          b !! (r * ns + m)
          = Some (Some (word data (data_index s + r + sw)))
          ∧ c !! (r * ns + m)
            = Some (Some (word data (data_index s + r + t))).
Proof.
  unfold generate_batch.
  intros (r & s1 & (Hns & -> & ->)%pymod_done & Hrest)%bind_done.
  apply bind_done in Hrest as (u1 & s2 & [Hmod ->]%assert_done & Hrest).
  apply bind_done in Hrest as (u2 & s3 & [Hle ->]%assert_done & Hrest).
  apply bool_decide_eq_true in Hmod, Hle.
  apply bind_done in Hrest as (buffer & s4 & Hfill & Hrest).
  assert (Hd : data_index s < length data).
  { replace (2 * sw + 1) with (S (2 * sw)) in Hfill by lia.
    by apply fill_first in Hfill. }
  apply (fill_done _ _ _ (data_index s)) in Hfill as (Hbuf & Hi4 & _);
    [|simpl; lia|by rewrite Nat.mod_small].
  simpl app in Hbuf. fold (window data (2 * sw + 1) (data_index s)) in Hbuf.
  apply bind_done in Hrest as (n & s5 & (_ & -> & ->)%pydiv_done & Hrest).
  apply bind_done in Hrest as ([b1 c1] & s6 & Hrows & Hrest).
  apply (rows_done fuel data ns sw (2 * sw + 1) ltac:(lia)
           _ _ (data_index s)) in Hrows
    as (Hi6 & Hlb & Hlc & _ & tss & Hlen & Hall & Hcells); [|done..].
  apply bind_done in Hrest as (i & s7 & [= <- <-] & Hrest).
  apply bind_done in Hrest as (u3 & s8 & Hset & [[= -> ->] ->]%ret_done).
  rewrite decide_False in Hset by lia.
  unfold set_index in Hset. injection Hset as Hs8. subst s8.
  rewrite length_replicate in Hlb, Hlc.
  split; [lia|]. do 3 (split; [done|]). split.
  { cbn [data_index]. rewrite Hi6.
    apply (step_back _ _ (2 * sw + 1)). lia. }
  do 2 (split; [done|]). exists tss. do 2 (split; [done|]).
  intros r ts m t Hr Hm. by apply (Hcells r ts m t).
Qed.

(** A cell of a batch lies in the row [k / num_skips], at the place
    [k mod num_skips]. *)
Lemma cell_of_row (tss : list (list nat)) bs ns k :
  0 < ns → bs mod ns = 0 → length tss = bs / ns →
  Forall (λ ts, length ts = ns) tss → k < bs →
  ∃ ts t, tss !! (k / ns) = Some ts ∧ ts !! (k mod ns) = Some t
          ∧ target_of tss ns k = t.
Proof.
  intros Hns Hmod Hlen Hall Hk.
  assert (Hr : k / ns < length tss).
  { rewrite Hlen. apply Nat.Div0.div_lt_upper_bound.
    pose proof (Nat.div_mod_eq bs ns). lia. }
  destruct (lookup_lt_is_Some_2 _ _ Hr) as [ts Hts].
  assert (Hl : length ts = ns).
  { by eapply (proj1 (Forall_lookup _ _) Hall). }
  destruct (lookup_lt_is_Some_2 ts (k mod ns)) as [t Ht].
  { rewrite Hl. apply Nat.mod_upper_bound. lia. }
  exists ts, t. unfold target_of. rewrite Hts. simpl. by rewrite Ht.
Qed.

(** ** A call that goes through *)

Lemma advance_ok data span buffer s :
  data_index s < length data →
  ∃ b s', advance data span buffer s = Done b s'.
Proof.
  intros Hd. destruct (lookup_lt_is_Some_2 _ _ Hd) as [x Hx].
  unfold advance, get_index, getitem, pymod, set_index, mbind, M_bind.
  rewrite Hx. unfold mret, M_ret. rewrite decide_False by lia. eauto.
Qed.

Lemma fill_ok data span : ∀ n buffer s,
  data_index s < length data →
  ∃ b s', fill n data span buffer s = Done b s'.
Proof.
  induction n as [|n IH]; intros buffer s Hd; simpl; [by eexists _, _|].
  destruct (advance_ok data span buffer s Hd) as (b1 & s1 & Hadv).
  unfold mbind, M_bind. rewrite Hadv.
  apply advance_done in Hadv as (_ & _ & _ & Hi & _).
  apply IH. rewrite Hi. apply Nat.mod_upper_bound. lia.
Qed.

Lemma store_ok arr k v s :
  k < length arr → int32 v = true →
  store arr k v s = Done (<[k := Some v]> arr) s.
Proof.
  intros Hk Hv. unfold store. rewrite decide_True by done. by rewrite Hv.
Qed.

Lemma word_int32 data p :
  Forall (λ v, int32 v = true) data → int32 (word data p) = true.
Proof.
  intros Hall. unfold word.
  destruct (data !! (p mod length data)) as [x|] eqn:Hx; [|done].
  by eapply (proj1 (Forall_lookup _ _) Hall).
Qed.

Lemma window_at data span p t :
  t < span → window data span p !! t = Some (word data (p + t)).
Proof.
  intros Ht. unfold window. rewrite list_lookup_fmap.
  by rewrite lookup_seq_lt.
Qed.

(** Fewer than [span] positions cannot cover [0 .. span - 1]. *)
Lemma free_position (avoid : list nat) span :
  length avoid < span → ∃ v, v < span ∧ v ∉ avoid.
Proof.
  intros Hlen.
  destruct (decide (Forall (λ v, v ∈ avoid) (seq 0 span))) as [Hall|Hex].
  - assert (Hsub : seq 0 span ⊆+ avoid).
    { apply NoDup_submseteq; [apply NoDup_seq|].
      intros v Hv. by eapply (proj1 (Forall_forall _ _) Hall). }
    apply submseteq_length in Hsub. rewrite length_seq in Hsub. lia.
  - apply not_Forall_Exists in Hex; [|apply _].
    apply Exists_exists in Hex as (v & Hv & Hfree).
    apply elem_of_seq in Hv. exists v. split; [lia | done].
Qed.

Lemma skips_ok fuel i ns sw data span p :
  finds fuel span → sw < span → Forall (λ v, int32 v = true) data →
  ∀ n j target avoid batch context s,
    target ∈ avoid → length avoid + n ≤ span →
    i * ns + j + n ≤ length batch → length context = length batch →
    ∃ b c s',
      skips fuel n j i ns sw span (window data span p) target avoid
        batch context s = Done (b, c) s'.
Proof.
  intros Hfinds Hsw Hdata.
  induction n as [|n IH]; intros j target avoid batch context s Hin Hav Hb Hc;
    simpl; [by eexists _, _, _|].
  destruct (Hfinds target avoid s Hin) as (t & s1 & Hpick & Ht).
  { apply free_position. lia. }
  unfold mbind, M_bind at 1. rewrite Hpick.
  unfold mbind, M_bind at 1. unfold getitem at 1.
  rewrite (window_at _ _ _ sw) by done. unfold mret at 1, M_ret at 1.
  unfold mbind, M_bind at 1.
  rewrite store_ok by (lia || apply word_int32, Hdata).
  unfold mbind, M_bind at 1. unfold getitem at 1.
  rewrite (window_at _ _ _ t) by done. unfold mret at 1, M_ret at 1.
  unfold mbind, M_bind at 1.
  rewrite store_ok by (lia || apply word_int32, Hdata).
  apply IH.
  - apply elem_of_app. right. apply list_elem_of_here.
  - rewrite length_app. simpl. lia.
  - rewrite length_insert. lia.
  - by rewrite !length_insert.
Qed.

Lemma rows_ok fuel data ns sw span :
  finds fuel span → sw < span → ns + 1 ≤ span →
  Forall (λ v, int32 v = true) data → 0 < length data →
  ∀ n i p batch context s,
    data_index s = (p + span) mod length data →
    (i + n) * ns ≤ length batch → length context = length batch →
    ∃ b c s',
      rows fuel n i data ns sw span (window data span p) batch context s
      = Done (b, c) s'.
Proof.
  intros Hfinds Hsw Hns Hdata HL.
  induction n as [|n IH]; intros i p batch context s Hidx Hb Hc; simpl;
    [by eexists _, _, _|].
  destruct (skips_ok fuel i ns sw data span p Hfinds Hsw Hdata
              ns 0 sw [sw] batch context s)
    as (b1 & c1 & s1 & Hskips); [apply list_elem_of_here|simpl; lia|nia|done|].
  unfold mbind, M_bind at 1. rewrite Hskips.
  apply skips_done in Hskips as (Hi1 & Hlb1 & Hlc1 & _).
  destruct (advance_ok data span (window data span p) s1) as (b2 & s2 & Hadv).
  { rewrite Hi1, Hidx. apply Nat.mod_upper_bound. lia. }
  unfold mbind, M_bind at 1. rewrite Hadv.
  apply advance_done in Hadv as (x & Hx & -> & Hi2 & _).
  rewrite Hi1, Hidx in Hx. apply word_at in Hx. subst x.
  rewrite deque_append_window by lia.
  apply IH; [|nia|congruence].
  rewrite Hi2, Hi1, Hidx, Nat.Div0.add_mod_idemp_l. f_equal. lia.
Qed.

End facts.

(** The counting generator goes round all positions, so [span] draws are
    enough. *)
Lemma counting_pick span avoid : ∀ fuel target d k,
  0 < span → target ∈ avoid →
  (∃ j, j < fuel ∧ (k + j) mod span ∉ avoid) →
  ∃ t s', @pick counting_lib fuel span target avoid
            (@Build_globals counting_lib d k) = Done t s'
          ∧ t < span.
Proof.
  induction fuel as [|fuel IH]; intros target d k Hspan Hin (j & Hj & Hfree);
    [lia|].
  simpl. rewrite decide_True by done.
  unfold mbind, M_bind, randint0. simpl.
  destruct (decide (k mod span ∈ avoid)) as [Hin'|Hout].
  - destruct j as [|j]; [by rewrite Nat.add_0_r in Hfree|].
    apply IH; [done..|]. exists j. split; [lia|].
    by replace (S k + j) with (k + S j) by lia.
  - exists (k mod span), (@Build_globals counting_lib d (S k)).
    split; [|apply Nat.mod_upper_bound; lia].
    destruct fuel; simpl; by rewrite decide_False.
Qed.

Lemma counting_finds fuel span : span ≤ fuel → @finds counting_lib fuel span.
Proof.
  intros Hfuel target avoid [d k] Hin (v & Hv & Hfree).
  apply counting_pick; [lia|done|].
  pose proof (Nat.div_mod_eq k span) as Hk.
  pose proof (Nat.mod_upper_bound k span ltac:(lia)) as Hr.
  destruct (decide (k mod span ≤ v)).
  - exists (v - k mod span). split; [lia|].
    replace (k + (v - k mod span)) with (v + (k / span) * span) by lia.
    by rewrite Nat.Div0.mod_add, Nat.mod_small.
  - exists (v + span - k mod span). split; [lia|].
    replace (k + (v + span - k mod span)) with (v + (S (k / span)) * span)
      by lia.
    by rewrite Nat.Div0.mod_add, Nat.mod_small.
Qed.

End BatchFacts.

(* ===================================================================== *)
(** * Properties of [generate_batch] *)
(* ===================================================================== *)

(** X6.  A call of [generate_batch] that returns leaves [data_index]
    [batch_size // num_skips] places further on than it found it, counted
    round the end of [data]: the next call goes on where this one
    stopped. *)
Theorem generate_batch_resumes `{PyLib} (fuel : nat) (data : list Z)
    (batch_size num_skips skip_window : nat) (s s' : Batch.globals)
    (batch context : list (option Z)) :
  Batch.generate_batch fuel data batch_size num_skips skip_window s
  = Batch.Done (batch, context) s' →
  Batch.data_index s'
  = (Batch.data_index s + batch_size / num_skips) mod length data.
Proof.
  intros Hdone. apply BatchFacts.generate_batch_done in Hdone. tauto.
Qed.

Lemma generate_batch_resumes_witness :
  @Batch.generate_batch counting_lib 3 [10; 11; 12; 13; 14]%Z 4 2 1
    (@Batch.Build_globals counting_lib 3 0)
  = Batch.Done ([Some 14; Some 14; Some 10; Some 10]%Z,
                [Some 13; Some 10; Some 14; Some 11]%Z)
      (@Batch.Build_globals counting_lib 0 6)
  ∧ Batch.data_index (@Batch.Build_globals counting_lib 0 6)
    = (3 + 4 / 2) mod 5.
Proof.
  assert (Hrun : @Batch.generate_batch counting_lib 3 [10; 11; 12; 13; 14]%Z 4 2 1
    (@Batch.Build_globals counting_lib 3 0)
    = Batch.Done ([Some 14; Some 14; Some 10; Some 10]%Z,
                  [Some 13; Some 10; Some 14; Some 11]%Z)
        (@Batch.Build_globals counting_lib 0 6))
    by reflexivity.
  split; [exact Hrun|].
  exact (@generate_batch_resumes counting_lib 3 [10; 11; 12; 13; 14]%Z 4 2 1
           _ _ _ _ Hrun).
Defined.

(** X7.  In a returned [batch] all [batch_size] cells are written, and the
    cell [k] holds the word of [data] that lies [k // num_skips] places
    after the middle of the first window, that is at
    [data_index + k // num_skips + skip_window], counted round the end. *)
Theorem generate_batch_centres `{PyLib} (fuel : nat) (data : list Z)
    (batch_size num_skips skip_window : nat) (s s' : Batch.globals)
    (batch context : list (option Z)) :
  Batch.generate_batch fuel data batch_size num_skips skip_window s
  = Batch.Done (batch, context) s' →
  length batch = batch_size
  ∧ ∀ k, k < batch_size →
      ∃ x, data !! ((Batch.data_index s + k / num_skips + skip_window)
                    mod length data) = Some x
           ∧ batch !! k = Some (Some x).
Proof.
  intros (Hns & Hmod & _ & Hd & _ & Hlb & _ & tss & Hlen & Hall & Hcells)
    %BatchFacts.generate_batch_done.
  split; [done|]. intros k Hk.
  destruct (BatchFacts.cell_of_row tss batch_size num_skips k)
    as (ts & t & Hts & Ht & _); [done..| |done|].
  { eapply Forall_impl; [exact Hall|]. by intros ? [? _]. }
  destruct (Hcells _ _ _ _ Hts Ht) as [Hb _].
  eexists. split; [apply BatchFacts.word_lookup; lia|].
  rewrite <- Hb. f_equal. pose proof (Nat.div_mod_eq k num_skips). lia.
Qed.

Lemma generate_batch_centres_witness :
  @Batch.generate_batch counting_lib 3 [10; 11; 12; 13; 14]%Z 4 2 1
    (@Batch.Build_globals counting_lib 3 0)
  = Batch.Done ([Some 14; Some 14; Some 10; Some 10]%Z,
                [Some 13; Some 10; Some 14; Some 11]%Z)
      (@Batch.Build_globals counting_lib 0 6)
  ∧ ∀ k, k < 4 →
      ∃ x, [10; 11; 12; 13; 14]%Z !! ((3 + k / 2 + 1) mod 5) = Some x
           ∧ [Some 14; Some 14; Some 10; Some 10]%Z !! k
             = Some (Some x).
Proof.
  assert (Hrun : @Batch.generate_batch counting_lib 3 [10; 11; 12; 13; 14]%Z 4 2 1
    (@Batch.Build_globals counting_lib 3 0)
    = Batch.Done ([Some 14; Some 14; Some 10; Some 10]%Z,
                  [Some 13; Some 10; Some 14; Some 11]%Z)
        (@Batch.Build_globals counting_lib 0 6))
    by reflexivity.
  split; [exact Hrun|].
  exact (proj2 (@generate_batch_centres counting_lib 3
                  [10; 11; 12; 13; 14]%Z 4 2 1 _ _ _ _ Hrun)).
Defined.

(** X8.  In a returned [context] all [batch_size] cells are written: the
    cell [k] holds a word of the same window as [batch[k]], at a position
    [target] of the window that is at most [2 * skip_window] and is not
    the middle one; and the cells of one window (the same
    [k // num_skips]) were taken at pairwise different positions. *)
Theorem generate_batch_contexts `{PyLib} (fuel : nat) (data : list Z)
    (batch_size num_skips skip_window : nat) (s s' : Batch.globals)
    (batch context : list (option Z)) :
  Batch.generate_batch fuel data batch_size num_skips skip_window s
  = Batch.Done (batch, context) s' →
  length context = batch_size
  ∧ ∃ target : nat → nat,
      ∀ k, k < batch_size →
        target k ≤ 2 * skip_window
        ∧ target k ≠ skip_window
        ∧ (∃ y, data !! ((Batch.data_index s + k / num_skips + target k)
                         mod length data) = Some y
                ∧ context !! k = Some (Some y))
        ∧ ∀ k', k' < batch_size → k' / num_skips = k / num_skips →
                target k' = target k → k' = k.
Proof.
  intros (Hns & Hmod & _ & Hd & _ & _ & Hlc & tss & Hlen & Hall & Hcells)
    %BatchFacts.generate_batch_done.
  split; [done|]. exists (BatchAux.target_of tss num_skips). intros k Hk.
  assert (Hall' : Forall (λ ts, length ts = num_skips) tss).
  { eapply Forall_impl; [exact Hall|]. by intros ? [? _]. }
  destruct (BatchFacts.cell_of_row tss batch_size num_skips k)
    as (ts & t & Hts & Ht & ->); [done..|].
  destruct (proj1 (Forall_lookup _ _) Hall _ _ Hts) as (_ & Hnd & Hrange).
  destruct (proj1 (Forall_lookup _ _) Hrange _ _ Ht) as [Hlt Hne].
  split; [lia|]. split; [done|]. split.
  - destruct (Hcells _ _ _ _ Hts Ht) as [_ Hc].
    eexists. split; [apply BatchFacts.word_lookup; lia|].
    rewrite <- Hc. f_equal. pose proof (Nat.div_mod_eq k num_skips). lia.
  - intros k' Hk' Hrow Heq.
    destruct (BatchFacts.cell_of_row tss batch_size num_skips k')
      as (ts' & t' & Hts' & Ht' & Htarget); [done..|].
    rewrite Hrow, Hts in Hts'. injection Hts' as <-.
    rewrite Heq in Htarget. subst t'.
    pose proof (NoDup_lookup _ _ _ _ Hnd Ht Ht') as Hm.
    pose proof (Nat.div_mod_eq k num_skips).
    pose proof (Nat.div_mod_eq k' num_skips). congruence.
Qed.

Lemma generate_batch_contexts_witness :
  @Batch.generate_batch counting_lib 3 [10; 11; 12; 13; 14]%Z 4 2 1
    (@Batch.Build_globals counting_lib 3 0)
  = Batch.Done ([Some 14; Some 14; Some 10; Some 10]%Z,
                [Some 13; Some 10; Some 14; Some 11]%Z)
      (@Batch.Build_globals counting_lib 0 6)
  ∧ ∃ target : nat → nat,
      ∀ k, k < 4 →
        target k ≤ 2 * 1
        ∧ target k ≠ 1
        ∧ (∃ y, [10; 11; 12; 13; 14]%Z !! ((3 + k / 2 + target k) mod 5)
                = Some y
                ∧ [Some 13; Some 10; Some 14; Some 11]%Z !! k
                  = Some (Some y))
        ∧ ∀ k', k' < 4 → k' / 2 = k / 2 → target k' = target k → k' = k.
Proof.
  assert (Hrun : @Batch.generate_batch counting_lib 3 [10; 11; 12; 13; 14]%Z 4 2 1
    (@Batch.Build_globals counting_lib 3 0)
    = Batch.Done ([Some 14; Some 14; Some 10; Some 10]%Z,
                  [Some 13; Some 10; Some 14; Some 11]%Z)
        (@Batch.Build_globals counting_lib 0 6))
    by reflexivity.
  split; [exact Hrun|].
  exact (proj2 (@generate_batch_contexts counting_lib 3
                  [10; 11; 12; 13; 14]%Z 4 2 1 _ _ _ _ Hrun)).
Defined.

(** X9.  The two checks at the head of [generate_batch] stop the call
    before it touches anything: with [num_skips = 0] the first of them
    divides by zero, and a [batch_size] that is no multiple of
    [num_skips], or a [num_skips] above [2 * skip_window], fails an
    [assert]; [data_index] and the generator stay as they were. *)
Theorem generate_batch_guards `{PyLib} (fuel : nat) (data : list Z)
    (batch_size num_skips skip_window : nat) (s : Batch.globals) :
  num_skips = 0 ∨ batch_size mod num_skips ≠ 0
  ∨ 2 * skip_window < num_skips →
  Batch.generate_batch fuel data batch_size num_skips skip_window s
  = Batch.Fail (if decide (num_skips = 0) then Batch.ZeroDivisionError
                else Batch.AssertionError) s.
Proof.
  intros Hbad. unfold Batch.generate_batch, Batch.pymod.
  destruct (decide (num_skips = 0)) as [->|Hns]; [done|].
  unfold mbind at 1, Batch.M_bind at 1. unfold mret at 1, Batch.M_ret at 1.
  unfold mbind at 1, Batch.M_bind at 1.
  destruct (decide (batch_size mod num_skips = 0)) as [Hmod|Hmod].
  - rewrite (bool_decide_eq_true_2 _ Hmod). simpl Batch.assert.
    unfold mret at 1, Batch.M_ret at 1.
    unfold mbind at 1, Batch.M_bind at 1.
    rewrite bool_decide_eq_false_2 by lia. done.
  - by rewrite (bool_decide_eq_false_2 _ Hmod).
Qed.

Lemma generate_batch_guards_witness :
  @Batch.generate_batch counting_lib 3 [10; 11; 12; 13; 14]%Z 4 3 1
    (@Batch.Build_globals counting_lib 3 0)
  = Batch.Fail Batch.AssertionError (@Batch.Build_globals counting_lib 3 0).
Proof.
  apply (@generate_batch_guards counting_lib 3 [10; 11; 12; 13; 14]%Z 4 3 1
           (@Batch.Build_globals counting_lib 3 0)).
  right. left. simpl. lia.
Defined.

(** X10.  With the checks passed, a [data_index] that is not a position of
    [data] -- any [data_index] when [data] is empty -- makes the first
    [data[data_index]] raise [IndexError]; nothing has been changed by
    then. *)
Theorem generate_batch_index_error `{PyLib} (fuel : nat) (data : list Z)
    (batch_size num_skips skip_window : nat) (s : Batch.globals) :
  0 < num_skips → batch_size mod num_skips = 0 →
  num_skips ≤ 2 * skip_window →
  length data ≤ Batch.data_index s →
  Batch.generate_batch fuel data batch_size num_skips skip_window s
  = Batch.Fail Batch.IndexError s.
Proof.
  intros Hns Hmod Hle Hd. unfold Batch.generate_batch, Batch.pymod.
  rewrite decide_False by lia. rewrite Hmod.
  unfold mbind at 1, Batch.M_bind at 1. unfold mret at 1, Batch.M_ret at 1.
  unfold mbind at 1, Batch.M_bind at 1. simpl Batch.assert.
  unfold mret at 1, Batch.M_ret at 1.
  rewrite bool_decide_eq_true_2 by done.
  unfold mbind at 1, Batch.M_bind at 1. simpl Batch.assert.
  unfold mret at 1, Batch.M_ret at 1. cbv zeta.
  replace (2 * skip_window + 1) with (S (2 * skip_window)) by lia.
  unfold mbind at 1, Batch.M_bind at 1. cbn [Batch.fill].
  unfold mbind at 1, Batch.M_bind at 1.
  unfold Batch.advance, Batch.get_index, Batch.getitem.
  unfold mbind at 1, Batch.M_bind at 1.
  unfold mbind at 1, Batch.M_bind at 1.
  by rewrite lookup_ge_None_2.
Qed.

Lemma generate_batch_index_error_witness :
  @Batch.generate_batch counting_lib 3 [] 4 2 1
    (@Batch.Build_globals counting_lib 0 0)
  = Batch.Fail Batch.IndexError (@Batch.Build_globals counting_lib 0 0).
Proof.
  apply (@generate_batch_index_error counting_lib 3 [] 4 2 1
           (@Batch.Build_globals counting_lib 0 0)).
  - lia.
  - reflexivity.
  - simpl. lia.
  - simpl. lia.
Defined.

(** X11.  The checks are all that [generate_batch] asks for: when they
    pass, [data_index] is a position of [data], the words fit an [int32]
    and the generator lets every [while] loop find a free position within
    [fuel] draws, the call returns a pair of arrays.  The check
    [num_skips <= 2 * skip_window] is what leaves a free position each
    time. *)
Theorem generate_batch_returns `{PyLib} (fuel : nat) (data : list Z)
    (batch_size num_skips skip_window : nat) (s : Batch.globals) :
  BatchAux.finds fuel (2 * skip_window + 1) →
  0 < num_skips → batch_size mod num_skips = 0 →
  num_skips ≤ 2 * skip_window →
  Batch.data_index s < length data →
  Forall (λ v, Batch.int32 v = true) data →
  ∃ batch context s',
    Batch.generate_batch fuel data batch_size num_skips skip_window s
    = Batch.Done (batch, context) s'.
Proof.
  intros Hfinds Hns Hmod Hle Hd Hdata.
  set (span := 2 * skip_window + 1) in *.
  unfold Batch.generate_batch. cbv zeta. fold span.
  unfold mbind at 1, Batch.M_bind at 1. unfold Batch.pymod.
  rewrite decide_False by lia. unfold mret at 1, Batch.M_ret at 1.
  rewrite Hmod. unfold mbind at 1, Batch.M_bind at 1. simpl Batch.assert.
  unfold mret at 1, Batch.M_ret at 1.
  rewrite bool_decide_eq_true_2 by done.
  unfold mbind at 1, Batch.M_bind at 1. simpl Batch.assert.
  unfold mret at 1, Batch.M_ret at 1.
  (* the first loop *)
  destruct (BatchFacts.fill_ok data span span [] s Hd)
    as (buffer & s1 & Hfill).
  unfold mbind at 1, Batch.M_bind at 1. rewrite Hfill.
  assert (Hb : buffer = BatchAux.window data span (Batch.data_index s)
               ∧ Batch.data_index s1
                 = (Batch.data_index s + span) mod length data).
  { apply (BatchFacts.fill_done _ _ _ (Batch.data_index s)) in Hfill
      as (Hbuf & Hi1 & _); [done|simpl; lia|by rewrite Nat.mod_small]. }
  destruct Hb as [-> Hi1].
  unfold mbind at 1, Batch.M_bind at 1. unfold Batch.pydiv.
  rewrite decide_False by lia. unfold mret at 1, Batch.M_ret at 1.
  (* the rows *)
  destruct (BatchFacts.rows_ok fuel data num_skips skip_window span
              Hfinds ltac:(lia) ltac:(lia) Hdata ltac:(lia)
              (batch_size / num_skips) 0 (Batch.data_index s)
              (replicate batch_size None) (replicate batch_size None) s1)
    as (b & c & s2 & Hrows); [done| |done|].
  { rewrite length_replicate.
    pose proof (Nat.div_mod_eq batch_size num_skips). nia. }
  unfold mbind at 1, Batch.M_bind at 1. rewrite Hrows.
  (* the last line *)
  unfold mbind at 1, Batch.M_bind at 1. unfold Batch.get_index.
  rewrite decide_False by lia.
  unfold mbind, Batch.M_bind, Batch.set_index, mret, Batch.M_ret.
  by eexists _, _, _.
Qed.

Lemma generate_batch_returns_witness :
  ∃ batch context s',
    @Batch.generate_batch counting_lib 3 [10; 11; 12; 13; 14]%Z 4 2 1
    (@Batch.Build_globals counting_lib 3 0)
    = Batch.Done (batch, context) s'.
Proof.
  apply (@generate_batch_returns counting_lib 3 [10; 11; 12; 13; 14]%Z 4 2 1
           (@Batch.Build_globals counting_lib 3 0)).
  - apply BatchFacts.counting_finds. simpl. lia.
  - lia.
  - reflexivity.
  - simpl. lia.
  - simpl. lia.
  - repeat constructor.
Defined.

(* ===================================================================== *)
(** * More on the connector: exceptions, added rules, the generator *)
(* ===================================================================== *)

Section more_methods.
Context `{PyLib}.
Implicit Types (w : world) (message : string) (items : list PatternRule).

Lemma first_match_app items extra message item mt :
  first_match items message item mt →
  first_match (items ++ extra) message item mt.
Proof.
  intros (before & after & -> & Hno & Hm).
  exists before, (after ++ extra). by rewrite <- app_assoc.
Qed.

(** [_postprocess] reads the responses and the generator, nothing else. *)
Lemma _postprocess_reads t w1 w2 :
  response_dict (self w1) = response_dict (self w2) →
  entropy w1 = entropy w2 →
  (_postprocess t w1).1 = (_postprocess t w2).1
  ∧ entropy (_postprocess t w1).2 = entropy (_postprocess t w2).2.
Proof.
  intros Hd Hg. destruct t as [i ents].
  unfold _postprocess, mbind, M_bind, get_response_dict. simpl. rewrite Hd.
  destruct (entry_truthy _) as [e|]; [|done].
  unfold getitem_messages. destruct (e !! "messages") as [messages|]; [|done].
  simpl. unfold choice. destruct messages as [|t0 l]; [done|]. rewrite Hg.
  destruct (randbelow _ _) as [k g]. destruct (_ !! k); [|done].
  by destruct (entities_truthy ents).
Qed.

(** [_postprocess] draws from the generator at most once. *)
Lemma _postprocess_draws t w :
  entropy (_postprocess t w).2 = entropy w
  ∨ ∃ n, 0 < n ∧ entropy (_postprocess t w).2 = (randbelow n (entropy w)).2.
Proof.
  destruct t as [i ents].
  unfold _postprocess, mbind, M_bind, get_response_dict. simpl.
  destruct (entry_truthy _) as [e|]; [|by left].
  unfold getitem_messages. destruct (e !! "messages") as [messages|]; [|by left].
  simpl. unfold choice. destruct messages as [|t0 l]; [by left|].
  right. exists (length (t0 :: l)). split; [simpl; lia|].
  destruct (randbelow _ _) as [k g]. destruct (_ !! k); [|done].
  by destruct (entities_truthy ents).
Qed.

End more_methods.

(** X12.  If the rules before [item] do not match and [re.match] raises on
    [item]'s pattern, the exception leaves [_process] and [respond]: the
    rules after [item] are not tried, whatever they are, and the world is
    as it was. *)
Theorem process_raises `{PyLib} (w : world) (message : string)
    (before after : list PatternRule) (item : PatternRule) (e : exn) :
  intent_list (self w) = before ++ item :: after →
  Forall (no_match message) before →
  re_match (pattern item) message = Raise e →
  _process message w = (Raise e, w) ∧ respond message w = (Raise e, w).
Proof.
  intros Hl Hno He.
  assert (Hloop : _process_loop (intent_list (self w)) message w = (Raise e, w)).
  { by rewrite Hl, _process_loop_skip, _process_loop_cons, He. }
  split; [by rewrite _process_unfold|]. by rewrite respond_unfold, Hloop.
Qed.

Lemma process_raises_witness :
  @respond erring_lib "bye" (@Build_world erring_lib flawed [])
  = (Raise re_error, @Build_world erring_lib flawed []).
Proof.
  apply (proj2 (@process_raises erring_lib (@Build_world erring_lib flawed [])
                  "bye"
                  [ {| intent := "need"; pattern := "I need (.*)" |} ]
                  [ {| intent := "bye"; pattern := "bye" |} ]
                  {| intent := "oops"; pattern := "(" |} re_error
                  ltac:(reflexivity)
                  ltac:(repeat constructor)
                  ltac:(reflexivity))).
Defined.

(** X13.  Rules added after the existing ones change nothing for a message
    that an existing rule matches: [_process] and [respond] give the same
    result and leave the generator in the same state. *)
Theorem appended_rules_are_harmless `{PyLib} (c : RegexConnector)
    (extra : list PatternRule) (g : rng) (message : string)
    (item : PatternRule) (mt : Match) :
  first_match (intent_list c) message item mt →
  let w := {| self := c; entropy := g |} in
  let w' := {| self := with_rules_appended c extra; entropy := g |} in
  (_process message w').1 = (_process message w).1
  ∧ (respond message w').1 = (respond message w).1
  ∧ entropy (respond message w').2 = entropy (respond message w).2.
Proof.
  intros Hf w w'.
  assert (Hf0 : first_match (intent_list (self w)) message item mt) by done.
  assert (Hf' : first_match (intent_list (self w')) message item mt)
    by by apply first_match_app.
  split.
  - rewrite !_process_unfold.
    by rewrite (_process_loop_first _ _ _ _ w' Hf'),
               (_process_loop_first _ _ _ _ w Hf0).
  - rewrite (respond_first message item mt w' Hf'),
            (respond_first message item mt w Hf0).
    by apply _postprocess_reads.
Qed.

Lemma appended_rules_are_harmless_witness :
  (@respond tape_lib "I need coffee"
     (tape_world (with_rules_appended eliza (intent_list shadowed)) [4])).1
  = (@respond tape_lib "I need coffee" (tape_world eliza [4])).1.
Proof.
  apply (proj1 (proj2 (@appended_rules_are_harmless tape_lib eliza
                         (intent_list shadowed) [4] "I need coffee"
                         {| intent := "need"; pattern := "I need (.*)" |}
                         {| m_end := 13; groups := [Some "coffee"] |}
                         ltac:(exists [], (tail (intent_list eliza));
                               split; [reflexivity|];
                               split; [constructor | vm_compute; reflexivity])))).
Defined.

(** X14.  [_postprocess] draws from the random generator at most once,
    and [_process] not at all: after [_postprocess], and so after a whole
    call of [respond], the generator is in the state it was in, or in the
    state that a single [_randbelow(n)] with a positive [n] leaves. *)
Theorem respond_draws_at_most_once `{PyLib} (w : world) (message : string)
    (intent_tuple : MatchResult) :
  (entropy (_postprocess intent_tuple w).2 = entropy w
   ∨ ∃ n, 0 < n
          ∧ entropy (_postprocess intent_tuple w).2
            = (randbelow n (entropy w)).2)
  ∧ entropy (_process message w).2 = entropy w
  ∧ (entropy (respond message w).2 = entropy w
     ∨ ∃ n, 0 < n
            ∧ entropy (respond message w).2 = (randbelow n (entropy w)).2).
Proof.
  split; [apply _postprocess_draws|].
  rewrite _process_unfold, respond_unfold.
  pose proof (_process_loop_frame (intent_list (self w)) message w) as Hf.
  split; [by rewrite Hf|].
  destruct (_process_loop _ _ _) as [[t|x|] w0]; simpl in Hf; subst w0;
    [|by left..].
  apply _postprocess_draws.
Qed.
